(** * TikTokDetection: the redirect classifier and the concurrent check dispatcher

    A shallow embedding of [douyin_check.py] (the two provider classifiers)
    and of [douyin_checker_gui.py] (the domain extraction helper and the
    [WorkerManager] thread pool), followed by the properties the design
    document states about them.

    Conventions of the embedding:
    - a Python [str] is the list of its code points ([pystr]); literals are
      written [py "..."], which decodes the UTF-8 bytes of the Rocq string
      literal; [f"..."] and [str.format] are written with [++];
    - [check_douyin_jump] and [check_weibo_jump] describe the calls that
      return a dictionary; the calls an exception leaves ([quote_plus] on a
      surrogate code point, [requests.get] raising something that is not a
      [RequestException]) are added by [check_douyin_jump_call] and
      [check_weibo_jump_call];
    - a Python [int] is a [Z];
    - the [dict] returned by a classifier is a record with one optional field
      per key the code may populate;
    - the network ([requests.get]) is a parameter of the development: a
      function from the requested URL to what the call produced. *)

From Stdlib Require Import String Ascii.
From stdpp Require Import base numbers list gmap.

Local Open Scope Z_scope.

(** ** Python strings *)

Definition pystr : Type := list N.

(** UTF-8 decoding of a literal: [pending] continuation bytes are still
    expected for the code point accumulated in [acc]. *)
Fixpoint utf8_decode (pending : nat) (acc : N) (s : string) : pystr :=
  match s with
  | EmptyString => []
  | String a s' =>
      let b := N_of_ascii a in
      match pending with
      | O =>
          if (b <? 128)%N then b :: utf8_decode 0 0%N s'
          else if (b <? 224)%N then utf8_decode 1 (b - 192)%N s'
          else if (b <? 240)%N then utf8_decode 2 (b - 224)%N s'
          else utf8_decode 3 (b - 240)%N s'
      | S p =>
          let acc' := (acc * 64 + (b - 128))%N in
          match p with
          | O => acc' :: utf8_decode 0 0%N s'
          | S _ => utf8_decode p acc' s'
          end
      end
  end.

Definition py (s : string) : pystr := utf8_decode 0 0%N s.

Definition pystr_eqb (a b : pystr) : bool := bool_decide (a = b).

(** [s.startswith(p)] *)
Fixpoint startswith (p s : pystr) : bool :=
  match p, s with
  | [], _ => true
  | _ :: _, [] => false
  | a :: p', b :: s' => (a =? b)%N && startswith p' s'
  end.

(** [kw in text] for two strings: [kw] occurs as a contiguous run of [text]. *)
Fixpoint str_in (kw text : pystr) : bool :=
  startswith kw text ||
  match text with
  | [] => false
  | _ :: text' => str_in kw text'
  end.

(** ** [urllib.parse.quote_plus] *)

(** [quote_plus] first encodes its argument as UTF-8 and then quotes the
    bytes. The definitions below are that encoding and quoting; the encoding
    step raises on a string with a surrogate code point, which is the
    subject of [quote_plus_call]. *)

(** UTF-8 encoding of one code point (the bytes as numbers below 256). *)
Definition utf8_encode (c : N) : list N :=
  if (c <? 128)%N then [c]
  else if (c <? 2048)%N then [192 + c / 64; 128 + c mod 64]%N
  else if (c <? 65536)%N then
    [224 + c / 4096; 128 + (c / 64) mod 64; 128 + c mod 64]%N
  else
    [240 + c / 262144; 128 + (c / 4096) mod 64;
     128 + (c / 64) mod 64; 128 + c mod 64]%N.

(** Letters, digits and [_.-~] are never quoted. *)
Definition always_safe (b : N) : bool :=
  ((65 <=? b) && (b <=? 90) || (97 <=? b) && (b <=? 122) ||
   (48 <=? b) && (b <=? 57) ||
   (b =? 95) || (b =? 46) || (b =? 45) || (b =? 126))%N.

Definition hex_digit (d : N) : N :=
  if (d <? 10)%N then (48 + d)%N else (55 + d)%N.

Definition quote_byte (b : N) : pystr :=
  if (b =? 32)%N then [43%N]
  else if always_safe b then [b]
  else [37%N; hex_digit (b / 16); hex_digit (b mod 16)].

Definition quote_plus (s : pystr) : pystr :=
  concat (map quote_byte (concat (map utf8_encode s))).

(** ** douyin_check.py *)

Definition DOUYIN_CHECK_URL_TEMPLATE (target : pystr) : pystr :=
  py "https://link.wtturl.cn/?aid=1128&lang=zh&scene=im&jumper_version=1&target="
    ++ target.

Definition WEIBO_CHECK_URL_TEMPLATE (target : pystr) : pystr :=
  py "https://weibo.cn/sinaurl?u=" ++ target.

Definition DOUYIN_BLOCK_KEYWORDS : list pystr :=
  [ py "第三方网页"; py "停止"; py "已终止访问该网页" ].

(** What [requests] hands back for one GET. [headers] lists the items of the
    response's header mapping, which [requests] looks up without regard to
    the case of the name; [text] is the decoded body. *)
Record Response := {
  status_code : Z;
  headers : list (pystr * pystr);
  text : option pystr
}.

(** One call of [requests.get(check_url, timeout=..., allow_redirects=False)]:
    it raises a [requests.RequestException] (carried here as [str(exc)]) or
    returns a response. *)
Inductive HttpOutcome :=
| RequestException (exc : pystr)
| Responded (resp : Response).

Definition ascii_lower (c : N) : N :=
  if ((65 <=? c) && (c <=? 90))%N then (c + 32)%N else c.

(** [resp.headers.get(name)]: [None] when [name in resp.headers] is false. *)
Fixpoint headers_get (name : pystr) (hs : list (pystr * pystr)) : option pystr :=
  match hs with
  | [] => None
  | (k, v) :: hs' =>
      if pystr_eqb (map ascii_lower k) (map ascii_lower name) then Some v
      else headers_get name hs'
  end.

(** [x or ""] for an optional string. *)
Definition or_empty (t : option pystr) : pystr :=
  match t with
  | Some (c :: s) => c :: s
  | _ => []
  end.

(** The dictionary a classifier returns: [status] is always present, the
    other keys only in the shapes that carry them. *)
Record CheckResult := {
  status : pystr;
  error : option pystr;
  redirect_to : option pystr;
  keywords : option (list pystr);
  http_status : option Z
}.

Definition error_result (exc : pystr) : CheckResult :=
  {| status := py "error"; error := Some exc; redirect_to := None;
     keywords := None; http_status := None |}.

Definition ok_result (location : pystr) (status_code : Z) : CheckResult :=
  {| status := py "ok"; error := None; redirect_to := Some location;
     keywords := None; http_status := Some status_code |}.

Definition blocked_result (hit_keywords : list pystr) (status_code : Z) : CheckResult :=
  {| status := py "blocked"; error := None; redirect_to := None;
     keywords := Some hit_keywords; http_status := Some status_code |}.

Definition unknown_result (status_code : Z) : CheckResult :=
  {| status := py "unknown"; error := None; redirect_to := None;
     keywords := None; http_status := Some status_code |}.

Section Classifier.

(** The network: what a GET of [url] with the given timeout produces. *)
Variable requests_get : pystr -> Z -> HttpOutcome.

(** A classifier returns its dictionary together with the list of requests
    it sent, in order. *)
Definition check_douyin_jump (target_url : pystr) (timeout : Z)
  : CheckResult * list pystr :=
  let encoded_target := quote_plus target_url in
  let check_url := DOUYIN_CHECK_URL_TEMPLATE encoded_target in
  match requests_get check_url timeout with
  | RequestException exc => (error_result exc, [check_url])
  | Responded resp =>
      let status_code := status_code resp in
      match (if (300 <=? status_code) && (status_code <? 400)
             then headers_get (py "Location") (headers resp) else None) with
      | Some location => (ok_result location status_code, [check_url])
      | None =>
          let text := or_empty (text resp) in
          let hit_keywords :=
            List.filter (fun kw => str_in kw text) DOUYIN_BLOCK_KEYWORDS in
          match hit_keywords with
          | _ :: _ => (blocked_result hit_keywords status_code, [check_url])
          | [] => (unknown_result status_code, [check_url])
          end
      end
  end.

Definition weibo_block_keywords : list pystr :=
  [ py "将要访问"; py "已停止访问" ].

Definition check_weibo_jump (target_url : pystr) (timeout : Z)
  : CheckResult * list pystr :=
  let encoded_target := quote_plus target_url in
  let check_url := WEIBO_CHECK_URL_TEMPLATE encoded_target in
  match requests_get check_url timeout with
  | RequestException exc => (error_result exc, [check_url])
  | Responded resp =>
      let status_code := status_code resp in
      match (if (300 <=? status_code) && (status_code <? 400)
             then headers_get (py "Location") (headers resp) else None) with
      | Some location => (ok_result location status_code, [check_url])
      | None =>
          let text := or_empty (text resp) in
          let hit_keywords :=
            List.filter (fun kw => str_in kw text) weibo_block_keywords in
          match hit_keywords with
          | _ :: _ => (blocked_result hit_keywords status_code, [check_url])
          | [] => (unknown_result status_code, [check_url])
          end
      end
  end.

End Classifier.

(** ** Sample networks used by the examples *)

Definition redirecting (location : pystr) : pystr -> Z -> HttpOutcome :=
  fun _ _ => Responded {| status_code := 302;
                          headers := [(py "location", location)];
                          text := Some [] |}.

Definition serving (code : Z) (body : pystr) : pystr -> Z -> HttpOutcome :=
  fun _ _ => Responded {| status_code := code; headers := []; text := Some body |}.

Definition unreachable_net : pystr -> Z -> HttpOutcome :=
  fun _ _ => RequestException (py "timeout").

(** A provider that forwards targets containing [good], blocks those
    containing [bad], cannot be reached for those containing [down], and
    answers anything else with a plain page. *)
Definition sample_net : pystr -> Z -> HttpOutcome :=
  fun url _ =>
    if str_in (py "good") url then
      Responded {| status_code := 302;
                   headers := [(py "Location", py "https://good.example/")];
                   text := None |}
    else if str_in (py "bad") url then
      Responded {| status_code := 200; headers := [];
                   text := Some (py "<h1>已终止访问该网页</h1><p>将要访问</p>") |}
    else if str_in (py "down") url then RequestException (py "timeout")
    else Responded {| status_code := 200; headers := []; text := Some (py "hello") |}.

(** ** douyin_checker_gui.py: the worker pool *)

(** The Qt signals of [WorkerManager]. *)
Inductive Signal :=
| logMessage (text : pystr)
| resultReady (url status : pystr)
| statsUpdate (total checked normal blocked : Z)
| finished.

(** Where a worker thread stands in [_thread_entry] / [_worker_loop], with
    the locals that are live there. *)
Inductive Frame :=
| AtLoopHead                      (* about to test [while not self._stop.is_set()] *)
| AtPauseWait                     (* about to test the inner [while] *)
| AtPop                           (* about to call [self._queue.get_nowait()] *)
| AtCheck (url : pystr)           (* inside the [try]: the provider call *)
| AtUpdate (url status : pystr)   (* about to enter [with self._lock] *)
| AtEmitResult (url status : pystr) (total checked normal blocked : Z)
| AtEmitStats (url status : pystr) (total checked normal blocked : Z)
| AtEmitLog (url status : pystr)
| AtFinally                       (* about to run the [finally] block *)
| Exited.

#[global] Instance Signal_eq_dec : EqDecision Signal.
Proof. solve_decision. Defined.

#[global] Instance Frame_eq_dec : EqDecision Frame.
Proof. solve_decision. Defined.

Record WorkerManager := {
  _queue : list pystr;
  _threads : list Frame;
  _stop : bool;
  _pause : bool;
  total : Z;
  checked : Z;
  normal : Z;
  blocked : Z;
  _active_threads : Z;
  mode : pystr
}.

(** [WorkerManager.__init__] *)
Definition init : WorkerManager :=
  {| _queue := []; _threads := []; _stop := false; _pause := false;
     total := 0; checked := 0; normal := 0; blocked := 0;
     _active_threads := 0; mode := py "douyin" |}.

(** [while not self._queue.empty(): self._queue.get_nowait()] *)
Fixpoint drain (q : list pystr) : list pystr :=
  match q with
  | [] => []
  | _ :: q' => drain q'
  end.

(** [for u in urls: self._queue.put(u)] *)
Definition put_all (q urls : list pystr) : list pystr :=
  fold_left (fun q u => q ++ [u]) urls q.

(** [for i in range(num_threads)]: one new thread per iteration, each about
    to enter [_thread_entry]. *)
Definition spawn (num_threads : Z) : list Frame :=
  replicate (Z.to_nat num_threads) AtLoopHead.

(** [start] runs on the caller's thread; the workers it creates read the
    fields only after they are all written, so it is one transition. The
    workers of an earlier run are taken to have exited: the new thread list
    replaces the old one. *)
Definition start (self : WorkerManager) (urls : list pystr) (num_threads : Z)
    (mode : pystr) : WorkerManager :=
  {| total := Z.of_nat (length urls); checked := 0; normal := 0; blocked := 0;
     mode := mode;
     _stop := false; _pause := false;
     _queue := put_all (drain (_queue self)) urls;
     _threads := spawn num_threads;
     _active_threads := num_threads |}.

Definition pause (self : WorkerManager) : WorkerManager :=
  {| _pause := true;
     _queue := _queue self; _threads := _threads self; _stop := _stop self;
     total := total self; checked := checked self; normal := normal self;
     blocked := blocked self; _active_threads := _active_threads self;
     mode := mode self |}.

Definition resume (self : WorkerManager) : WorkerManager :=
  {| _pause := false;
     _queue := _queue self; _threads := _threads self; _stop := _stop self;
     total := total self; checked := checked self; normal := normal self;
     blocked := blocked self; _active_threads := _active_threads self;
     mode := mode self |}.

Definition is_paused (self : WorkerManager) : bool := _pause self.

(** [self._stop.set(); self._pause.clear()]. A worker that reads the flags
    between the two writes sees [_stop] set, and then [_pause] no longer
    matters to it, so the two writes are one transition. *)
Definition stop (self : WorkerManager) : WorkerManager :=
  {| _stop := true; _pause := false;
     _queue := _queue self; _threads := _threads self;
     total := total self; checked := checked self; normal := normal self;
     blocked := blocked self; _active_threads := _active_threads self;
     mode := mode self |}.

(** Thread [i] moves to frame [f]. *)
Definition goto (i : nat) (f : Frame) (self : WorkerManager) : WorkerManager :=
  {| _threads := <[i := f]> (_threads self);
     _queue := _queue self; _stop := _stop self; _pause := _pause self;
     total := total self; checked := checked self; normal := normal self;
     blocked := blocked self; _active_threads := _active_threads self;
     mode := mode self |}.

Definition with_queue (q : list pystr) (self : WorkerManager) : WorkerManager :=
  {| _queue := q;
     _threads := _threads self; _stop := _stop self; _pause := _pause self;
     total := total self; checked := checked self; normal := normal self;
     blocked := blocked self; _active_threads := _active_threads self;
     mode := mode self |}.

(** The body of [with self._lock] in the loop: the counters after one result. *)
Definition count (status : pystr) (self : WorkerManager) : WorkerManager :=
  {| checked := checked self + 1;
     normal := if pystr_eqb status (py "ok") then normal self + 1 else normal self;
     blocked := if pystr_eqb status (py "ok") then blocked self
                else if pystr_eqb status (py "blocked") then blocked self + 1
                else blocked self;
     _queue := _queue self; _threads := _threads self; _stop := _stop self;
     _pause := _pause self; total := total self;
     _active_threads := _active_threads self; mode := mode self |}.

Definition with_active (n : Z) (self : WorkerManager) : WorkerManager :=
  {| _active_threads := n;
     _queue := _queue self; _threads := _threads self; _stop := _stop self;
     _pause := _pause self; total := total self; checked := checked self;
     normal := normal self; blocked := blocked self; mode := mode self |}.

Definition status_text (status : pystr) : pystr :=
  if pystr_eqb status (py "ok") then py "正常"
  else if pystr_eqb status (py "blocked") then py "拦截"
  else if pystr_eqb status (py "unknown") then py "未知"
  else py "错误".

(** How the [try] block of the loop body ends. *)
Inductive Attempt :=
| Returned (status : pystr)
| Raised (exc : pystr).

(** One scheduling decision: worker [i] runs up to its next interaction with
    shared state, or the owner of the pool calls one of its control methods. *)
Inductive Action :=
| Worker (i : nat)
| Pause
| Resume
| Stop.

#[global] Instance Action_eq_dec : EqDecision Action.
Proof. solve_decision. Defined.

Section Pool.

Variable requests_get : pystr -> Z -> HttpOutcome.

(** The [try] block: dispatch on [self.mode]; both classifiers are called
    with their default timeout of 10, and every dictionary they build has a
    ["status"] entry, so [result.get("status", "error")] is that entry. *)
Definition attempt (mode url : pystr) : Attempt :=
  if pystr_eqb mode (py "douyin") then
    Returned (status (check_douyin_jump requests_get url 10).1)
  else if pystr_eqb mode (py "weibo") then
    Returned (status (check_weibo_jump requests_get url 10).1)
  else Raised (py "未知检测模式: " ++ mode).

(** One step of [_worker_loop] for thread [i] standing at frame [f], with the
    signals it emits. Leaving the loop hands control back to [_thread_entry],
    at its [finally] block. *)
Definition _worker_loop (i : nat) (f : Frame) (self : WorkerManager)
  : option (WorkerManager * list Signal) :=
  match f with
  | AtLoopHead =>
      if _stop self then Some (goto i AtFinally self, [])
      else Some (goto i AtPauseWait self, [])
  | AtPauseWait =>
      if _pause self && negb (_stop self)
      then Some (self, [])                       (* time.sleep(0.1) *)
      else Some (goto i AtPop self, [])
  | AtPop =>
      match _queue self with
      | [] => Some (goto i AtFinally self, [])   (* queue.Empty: break *)
      | url :: q => Some (goto i (AtCheck url) (with_queue q self), [])
      end
  | AtCheck url =>
      match attempt (mode self) url with
      | Returned status => Some (goto i (AtUpdate url status) self, [])
      | Raised exc =>
          Some (goto i (AtUpdate url (py "error")) self,
                [logMessage (py "检测出错：" ++ url ++ py " -> " ++ exc)])
      end
  | AtUpdate url status =>
      let self := count status self in
      Some (goto i (AtEmitResult url status (total self) (checked self)
                      (normal self) (blocked self)) self, [])
  | AtEmitResult url status t c n b =>
      Some (goto i (AtEmitStats url status t c n b) self, [resultReady url status])
  | AtEmitStats url status t c n b =>
      Some (goto i (AtEmitLog url status) self, [statsUpdate t c n b])
  | AtEmitLog url status =>
      Some (goto i AtLoopHead self,
            [logMessage (url ++ py " -> " ++ status_text status)])
  | AtFinally | Exited => None
  end.

(** One step of [_thread_entry]: the loop, then the [finally] block, which
    runs under [self._lock]. *)
Definition _thread_entry (i : nat) (f : Frame) (self : WorkerManager)
  : option (WorkerManager * list Signal) :=
  match f with
  | AtFinally =>
      let self := with_active (_active_threads self - 1) self in
      Some (goto i Exited self,
            if _active_threads self <=? 0 then [finished] else [])
  | Exited => None
  | _ => _worker_loop i f self
  end.

(** The next step of worker [i]. [None]: there is no such thread, or it has
    exited. *)
Definition worker_step (i : nat) (self : WorkerManager)
  : option (WorkerManager * list Signal) :=
  match _threads self !! i with
  | None => None
  | Some f => _thread_entry i f self
  end.

Definition act (a : Action) (self : WorkerManager)
  : option (WorkerManager * list Signal) :=
  match a with
  | Worker i => worker_step i self
  | Pause => Some (pause self, [])
  | Resume => Some (resume self, [])
  | Stop => Some (stop self, [])
  end.

(** A schedule is run from a state; the signals are collected in the order
    they are emitted. [None]: some action of the schedule was not enabled. *)
Fixpoint run (sched : list Action) (self : WorkerManager)
  : option (WorkerManager * list Signal) :=
  match sched with
  | [] => Some (self, [])
  | a :: sched' =>
      match act a self with
      | None => None
      | Some (self', out) =>
          match run sched' self' with
          | None => None
          | Some (self'', out') => Some (self'', out ++ out')
          end
      end
  end.

End Pool.

(** Every thread has left [_thread_entry]. *)
Definition all_exited (self : WorkerManager) : Prop :=
  Forall (fun f => f = Exited) (_threads self).

Definition is_finished (s : Signal) : bool :=
  match s with finished => true | _ => false end.

(** How many times [finished] was emitted. *)
Definition finished_count (out : list Signal) : nat :=
  length (List.filter is_finished out).

(** How many signals other than [finished] were emitted. *)
Definition task_signals (out : list Signal) : nat :=
  length (List.filter (λ sg, negb (is_finished sg)) out).

Definition snapshot (self : WorkerManager) : Z * Z * Z * Z :=
  (total self, checked self, normal self, blocked self).

(** ** douyin_checker_gui.py: domain extraction *)

(** The fragment of [re] patterns that [DOMAIN_REGEX] is written in. All
    repetitions are greedy. *)
Inductive Regex :=
| Class (p : N -> bool)
| WordBoundary
| Seq (r1 r2 : Regex)
| Star (r : Regex).

Definition Plus (r : Regex) : Regex := Seq r (Star r).
Definition AtLeast2 (r : Regex) : Regex := Seq r (Seq r (Star r)).

Definition is_upper (c : N) : bool := ((65 <=? c) && (c <=? 90))%N.
Definition is_lower (c : N) : bool := ((97 <=? c) && (c <=? 122))%N.
Definition is_digit (c : N) : bool := ((48 <=? c) && (c <=? 57))%N.

(** [[a-zA-Z]], [[a-zA-Z0-9]], [[a-zA-Z0-9-]] and [\.] *)
Definition alpha (c : N) : bool := is_lower c || is_upper c.
Definition alnum (c : N) : bool := alpha c || is_digit c.
Definition alnum_dash (c : N) : bool := alnum c || (c =? 45)%N.
Definition dot (c : N) : bool := (c =? 46)%N.

(** [\b(?:(?:[a-zA-Z0-9][a-zA-Z0-9-]*\.)+[a-zA-Z]{2,})\b] *)
Definition DOMAIN_REGEX : Regex :=
  Seq WordBoundary
    (Seq (Seq (Plus (Seq (Class alnum) (Seq (Star (Class alnum_dash)) (Class dot))))
              (AtLeast2 (Class alpha)))
         WordBoundary).

(** [str.lower()] on the strings this module applies it to: the pattern only
    matches ASCII letters, digits, [-] and [.]. *)
Definition lower (s : pystr) : pystr := map ascii_lower s.

Section Extraction.

(** [str.isalnum()] for the code points outside ASCII, which [\b] consults
    for the characters next to a match. *)
Variable unicode_alnum : N -> bool.

(** [\w] of a [str] pattern. *)
Definition is_word (c : N) : bool :=
  if (c <? 128)%N then alnum c || (c =? 95)%N else unicode_alnum c.

(** [\b] between the character before the position and the one after it. *)
Definition at_boundary (prev : option N) (rest : pystr) : bool :=
  xorb (from_option is_word false prev) (from_option is_word false (head rest)).

(** The positions where a match of [r] that starts at [(prev, rest)] can
    end, in the order the backtracking matcher tries them. [fuel] bounds the
    iterations of a [Star]; an iteration that consumes nothing is cut. *)
Fixpoint ends (fuel : nat) : Regex -> option N -> pystr -> list (option N * pystr) :=
  fix go (r : Regex) (prev : option N) (rest : pystr) :=
    match r with
    | Class p =>
        match rest with
        | c :: rest' => if p c then [(Some c, rest')] else []
        | [] => []
        end
    | WordBoundary => if at_boundary prev rest then [(prev, rest)] else []
    | Seq r1 r2 => flat_map (fun e => go r2 e.1 e.2) (go r1 prev rest)
    | Star r' =>
        match fuel with
        | O => [(prev, rest)]
        | S fuel' =>
            flat_map (fun e => if (length e.2 <? length rest)%nat
                               then ends fuel' (Star r') e.1 e.2 else [])
                     (go r' prev rest)
            ++ [(prev, rest)]
        end
    end.

(** [pattern.match] at a position: how many characters the match takes. *)
Definition match_at (r : Regex) (prev : option N) (rest : pystr) : option nat :=
  match ends (length rest) r prev rest with
  | e :: _ => Some (length rest - length e.2)%nat
  | [] => None
  end.

(** [pattern.findall]: scan left to right; after a match the scan resumes
    where the match ended ([skip] characters further). *)
Fixpoint findall_from (r : Regex) (prev : option N) (rest : pystr) (skip : nat)
  : list pystr :=
  match rest with
  | [] => []
  | c :: rest' =>
      match skip with
      | S k => findall_from r (Some c) rest' k
      | O =>
          match match_at r prev rest with
          | Some n => take n rest :: findall_from r (Some c) rest' (n - 1)
          | None => findall_from r (Some c) rest' 0
          end
      end
  end.

Definition findall (r : Regex) (text : pystr) : list pystr :=
  findall_from r None text 0.

(** The loop of [extract_domains_from_text]. *)
Fixpoint extract_loop (matches : list pystr) (seen : gset pystr)
    (domains : list pystr) : list pystr :=
  match matches with
  | [] => domains
  | m :: matches' =>
      let domain := lower m in
      if bool_decide (domain ∈ seen) then extract_loop matches' seen domains
      else extract_loop matches' ({[domain]} ∪ seen) (domains ++ [domain])
  end.

Definition extract_domains_from_text (text : pystr) : list pystr :=
  extract_loop (findall DOMAIN_REGEX text) ∅ [].

End Extraction.

(** "Duplicates removed, keeping each first occurrence, in first-occurrence
    order". *)
Fixpoint first_occurrences (l : list pystr) : list pystr :=
  match l with
  | [] => []
  | x :: l' => x :: filter (λ y, y ≠ x) (first_occurrences l')
  end.

(** Every character class of [r] lies within [P]. *)
Fixpoint classes_within (P : N → bool) (r : Regex) : Prop :=
  match r with
  | Class p => ∀ c, p c = true → P c = true
  | WordBoundary => True
  | Seq r1 r2 => classes_within P r1 ∧ classes_within P r2
  | Star r' => classes_within P r'
  end.

(** What a match of [r] consumes is a prefix of the input made of characters
    that satisfy [P]. *)
Definition consumes (unicode_alnum : N → bool) (P : N → bool) (fuel : nat)
    (r : Regex) : Prop :=
  ∀ prev rest e, In e (ends unicode_alnum fuel r prev rest) →
    ∃ w, rest = w ++ e.2 ∧ Forall (λ c, P c = true) w.

(** The characters of a lower-cased domain: [a-z], [0-9], [-] and [.]. *)
Definition domain_char (c : N) : bool :=
  is_lower c || is_digit c || (c =? 45)%N || (c =? 46)%N.

(** A word-character table with no alphanumerics beyond ASCII, and one that
    knows the CJK ideographs. *)
Definition ascii_only : N -> bool := fun _ => false.
Definition with_cjk : N -> bool := fun c => ((19968 <=? c) && (c <=? 40959))%N.

(** ** Specification vocabulary *)

(** [kw] is a substring of [text]: same code points, same case, contiguous. *)
Definition occurs_in (kw text : pystr) : Prop :=
  ∃ pre post, text = pre ++ kw ++ post.

(** The response body the design document speaks of: the decoded text as it
    is, and the empty string for a response without one. *)
Definition response_body (resp : Response) : pystr :=
  match text resp with
  | Some s => s
  | None => []
  end.

(** [hits] lists, in the order of [l], exactly the elements of [l] that
    satisfy [P]. *)
Inductive selects (P : pystr → Prop) : list pystr → list pystr → Prop :=
| selects_nil : selects P [] []
| selects_keep x l hits : P x → selects P l hits → selects P (x :: l) (x :: hits)
| selects_skip x l hits : ¬ P x → selects P l hits → selects P (x :: l) hits.

Section DecisionTable.

Variable requests_get : pystr -> Z -> HttpOutcome.


(** What a [blocked] answer carries. *)
Definition matched_keywords_exact (check : pystr -> Z -> CheckResult * list pystr)
    (template : pystr -> pystr) (block_keywords : list pystr) : Prop :=
  ∀ (target : pystr) (timeout : Z),
    let r := (check target timeout).1 in
    status r = py "blocked" →
    ∃ resp hits,
      requests_get (template (quote_plus target)) timeout = Responded resp ∧
      keywords r = Some hits ∧
      selects (λ kw, occurs_in kw (or_empty (text resp))) block_keywords hits ∧
      (∀ kw, kw ∈ hits ↔
             kw ∈ block_keywords ∧ occurs_in kw (or_empty (text resp))) ∧
      sublist hits block_keywords ∧
      hits ≠ [].

End DecisionTable.

(** The part of a classifier that follows a response: both classifiers run
    it, each over its own keyword list (see [check_douyin_jump_eq]). *)
Definition decide_response (kws : list pystr) (resp : Response) : CheckResult :=
  match (if (300 <=? status_code resp) && (status_code resp <? 400)
         then headers_get (py "Location") (headers resp) else None) with
  | Some location => ok_result location (status_code resp)
  | None =>
      match List.filter (fun kw => str_in kw (or_empty (text resp))) kws with
      | [] => unknown_result (status_code resp)
      | hits => blocked_result hits (status_code resp)
      end
  end.


(** ** Vocabulary for the pool's invariants *)

(** The sum of a weight over a list. *)
Definition total_of {A : Type} (w : A → Z) (l : list A) : Z :=
  foldr (λ x acc, w x + acc) 0 l.

(** Weights on frames: a thread that has exited; one that has left the loop;
    one that holds a popped task not yet counted in [checked]. *)
Definition exited (f : Frame) : Z :=
  match f with Exited => 1 | _ => 0 end.

Definition leaving (f : Frame) : Z :=
  match f with AtFinally | Exited => 1 | _ => 0 end.

Definition in_flight (f : Frame) : Z :=
  match f with AtCheck _ | AtUpdate _ _ => 1 | _ => 0 end.

(** A thread that will add one to [checked] before it next tests [_stop]:
    it holds a task, or it is past the test and on its way to the queue. *)
Definition committed (f : Frame) : Z :=
  match f with
  | AtPauseWait | AtPop | AtCheck _ | AtUpdate _ _ => 1
  | _ => 0
  end.

(** Signals a thread may still emit for the task it works on. *)
Definition owed (f : Frame) : Z :=
  match f with
  | AtCheck _ => 4
  | AtUpdate _ _ | AtEmitResult _ _ _ _ _ _ => 3
  | AtEmitStats _ _ _ _ _ _ => 2
  | AtEmitLog _ _ => 1
  | _ => 0
  end.

(** Steps a thread still has to take in its current iteration. *)
Definition rank (f : Frame) : Z :=
  match f with
  | Exited => 0
  | AtFinally => 1
  | AtPop => 2
  | AtPauseWait => 3
  | AtLoopHead => 4
  | AtEmitLog _ _ => 5
  | AtEmitStats _ _ _ _ _ _ => 6
  | AtEmitResult _ _ _ _ _ _ => 7
  | AtUpdate _ _ => 8
  | AtCheck _ => 9
  end.

(** An upper bound on the worker steps left when nobody sleeps. *)
Definition effort (self : WorkerManager) : Z :=
  total_of rank (_threads self) + 8 * Z.of_nat (length (_queue self)).

Section Invariant.

Variable requests_get : pystr -> Z -> HttpOutcome.

(** The run under consideration: [start urls num_threads the_mode]. *)
Variable urls : list pystr.
Variable num_threads : Z.
Variable the_mode : pystr.

(** The status the loop body computes for a task. *)
Definition outcome (url : pystr) : pystr :=
  match attempt requests_get the_mode url with
  | Returned status => status
  | Raised _ => py "error"
  end.

Definition ok_weight (url : pystr) : Z :=
  if pystr_eqb (outcome url) (py "ok") then 1 else 0.

Definition blocked_weight (url : pystr) : Z :=
  if pystr_eqb (outcome url) (py "blocked") then 1 else 0.

Definition held_weight (w : pystr → Z) (f : Frame) : Z :=
  match f with
  | AtCheck url | AtUpdate url _ => w url
  | _ => 0
  end.

Definition good_snapshot (t c n b : Z) : Prop :=
  t = Z.of_nat (length urls) ∧ 0 ≤ c ≤ t ∧ 0 ≤ n ∧ 0 ≤ b ∧ n + b ≤ c.

(** The locals of a frame agree with the task it works on. *)
Definition frame_ok (f : Frame) : Prop :=
  match f with
  | AtUpdate url status | AtEmitLog url status => status = outcome url
  | AtEmitResult url status t c n b | AtEmitStats url status t c n b =>
      status = outcome url ∧ good_snapshot t c n b
  | _ => True
  end.

Definition signal_ok (sg : Signal) : Prop :=
  match sg with
  | resultReady url status => status = outcome url
  | statsUpdate t c n b => good_snapshot t c n b
  | _ => True
  end.

(** What holds of the pool and of the signals emitted so far, at every point
    of a run. *)
Record pool_inv (self : WorkerManager) (out : list Signal) : Prop := {
  inv_total : total self = Z.of_nat (length urls);
  inv_mode : mode self = the_mode;
  inv_threads : length (_threads self) = Z.to_nat num_threads;
  inv_active : _active_threads self = num_threads - total_of exited (_threads self);
  inv_checked :
    checked self + total_of in_flight (_threads self)
      + Z.of_nat (length (_queue self)) = total self;
  inv_bounds :
    0 ≤ checked self ∧ 0 ≤ normal self ∧ 0 ≤ blocked self ∧
    normal self + blocked self ≤ checked self;
  inv_normal :
    normal self + total_of (held_weight ok_weight) (_threads self)
      + total_of ok_weight (_queue self) = total_of ok_weight urls;
  inv_blocked :
    blocked self + total_of (held_weight blocked_weight) (_threads self)
      + total_of blocked_weight (_queue self) = total_of blocked_weight urls;
  inv_frames : Forall frame_ok (_threads self);
  inv_signals : Forall signal_ok out;
  inv_finished :
    (finished_count out ≤ 1)%nat ∧
    (finished_count out = 1%nat ↔
     0 < num_threads ∧ total_of exited (_threads self) = num_threads);
  inv_owed :
    Z.of_nat (task_signals out) + total_of owed (_threads self)
      ≤ 4 * (checked self + total_of in_flight (_threads self));
  inv_leaving :
    0 < total_of leaving (_threads self) → _stop self = true ∨ _queue self = []
}.

End Invariant.

(** ** The documented behaviours that are compared with the code *)

Section Documented.

Variable requests_get : pystr -> Z -> HttpOutcome.

(** "Fails fast before any worker is spawned": [start] creates no thread, and
    no run that follows counts or reports a task. *)
Definition fails_fast (self : WorkerManager) (urls : list pystr)
    (num_threads : Z) (mode' : pystr) : Prop :=
  _threads (start self urls num_threads mode') = [] ∧
  ∀ sched s out,
    run requests_get sched (start self urls num_threads mode') = Some (s, out) →
    checked s = 0 ∧ ∀ url status, resultReady url status ∉ out.

(** "After [stop()] ... exits without popping further tasks": from a state
    in which [stop] has just been called, whatever the workers do next, the
    queue keeps the tasks it held. *)
Definition no_pop_after_stop (self : WorkerManager) : Prop :=
  ∀ ws s' out,
    run requests_get (Worker <$> ws) (stop self) = Some (s', out) →
    _queue s' = _queue self.

End Documented.

(** ** Schedulers used by the examples *)

(** The index of the first thread that has not exited. *)
Fixpoint first_live (threads : list Frame) : option nat :=
  match threads with
  | [] => None
  | Exited :: threads' => S <$> first_live threads'
  | _ :: _ => Some O
  end.

(** The schedule that always runs the first live thread, for at most [fuel]
    steps, with the state it reaches. *)
Fixpoint sequential (requests_get : pystr → Z → HttpOutcome) (fuel : nat)
    (self : WorkerManager) : list Action :=
  match fuel with
  | O => []
  | S fuel' =>
      match first_live (_threads self) with
      | None => []
      | Some i =>
          match worker_step requests_get i self with
          | None => []
          | Some (self', _) => Worker i :: sequential requests_get fuel' self'
          end
      end
  end.

(** The schedule that runs the live threads in turn: [i] is the thread to try
    next, [idle] counts the exited threads skipped since the last step. *)
Fixpoint round_robin (requests_get : pystr → Z → HttpOutcome) (fuel : nat)
    (i idle : nat) (self : WorkerManager) : list Action :=
  match fuel with
  | O => []
  | S fuel' =>
      let n := length (_threads self) in
      if (n <=? idle)%nat then []
      else
        match worker_step requests_get i self with
        | None => round_robin requests_get fuel' (S i mod n) (S idle) self
        | Some (self', _) =>
            Worker i :: round_robin requests_get fuel' (S i mod n) 0 self'
        end
  end.

(** ** douyin_check.py: the exceptions a classifier lets through *)

(** The exceptions that leave a classifier: the [UnicodeEncodeError] of
    [quote_plus], and whatever [requests.get] raises that is not a
    [requests.RequestException] (carried by its text). *)
Inductive Exc :=
| UnicodeEncodeError
| OtherException (text : pystr).

(** How a call ends: it returns a value, or an exception leaves it. *)
Inductive Ending (A : Type) : Type :=
| Returns (a : A)
| Escapes (exc : Exc).

Arguments Returns {A} a.
Arguments Escapes {A} exc.

(** The surrogate code points U+D800..U+DFFF. A Python [str] can hold them
    ([sys.argv] does, for arguments that are not valid UTF-8), and
    [str.encode("utf-8")] under the strict error handler raises on them. *)
Definition is_surrogate (c : N) : bool := ((55296 <=? c) && (c <=? 57343))%N.

(** The call [quote_plus(s)]: the argument is encoded first, so a string
    with a surrogate raises; any other string is quoted. *)
Definition quote_plus_call (s : pystr) : Ending pystr :=
  if existsb is_surrogate s then Escapes UnicodeEncodeError
  else Returns (quote_plus s).

Section Calls.

Variable requests_get : pystr -> Z -> HttpOutcome.

(** [requests.get] can also raise an exception that is not a
    [RequestException], which the [except] clause of a classifier does not
    catch; the [ValueError] for a timeout that is not positive is one.
    [requests_get_other url timeout] is the text of that exception when the
    call raises one; [requests_get] describes the call when it does not. *)
Variable requests_get_other : pystr -> Z -> option pystr.

(** A call of a classifier from its first statement on: [quote_plus] may
    raise before any request is made, [requests.get] may raise past the
    [except] clause, and otherwise the call returns its dictionary. *)
Definition check_douyin_jump_call (target_url : pystr) (timeout : Z)
  : Ending (CheckResult * list pystr) :=
  match quote_plus_call target_url with
  | Escapes exc => Escapes exc
  | Returns encoded_target =>
      let check_url := DOUYIN_CHECK_URL_TEMPLATE encoded_target in
      match requests_get_other check_url timeout with
      | Some exc => Escapes (OtherException exc)
      | None => Returns (check_douyin_jump requests_get target_url timeout)
      end
  end.

Definition check_weibo_jump_call (target_url : pystr) (timeout : Z)
  : Ending (CheckResult * list pystr) :=
  match quote_plus_call target_url with
  | Escapes exc => Escapes exc
  | Returns encoded_target =>
      let check_url := WEIBO_CHECK_URL_TEMPLATE encoded_target in
      match requests_get_other check_url timeout with
      | Some exc => Escapes (OtherException exc)
      | None => Returns (check_weibo_jump requests_get target_url timeout)
      end
  end.

(** ** douyin_check.py: the command line *)

(** [main], from the point where [argparse] has produced [args.url] and
    [args.timeout] (10 when [--timeout] is absent): the lines it prints, or
    the exception that ends it before it prints anything. *)
Definition main (url : pystr) (timeout : Z) : Ending (list pystr) :=
  match check_douyin_jump_call url timeout with
  | Escapes exc => Escapes exc
  | Returns (result, _) =>
      let status := status result in
      if pystr_eqb status (py "ok") then Returns [py "检测结果：正常"]
      else if pystr_eqb status (py "blocked") then Returns [py "检测结果：拦截"]
      else if pystr_eqb status (py "unknown") then Returns [py "检测结果：未知"]
      else Returns [py "检测结果：错误"]
  end.

End Calls.

(** An environment in which [requests.get] raises [ValueError] for a timeout
    that is not positive and nothing else past the [except] clause. *)
Definition timeout_checked : pystr -> Z -> option pystr :=
  fun _ timeout =>
    if timeout <=? 0 then Some (py "ValueError") else None.

(** The four shapes of a classifier's dictionary. *)
Definition well_formed_result (r : CheckResult) : Prop :=
  (status r = py "ok" ∧ is_Some (redirect_to r) ∧ is_Some (http_status r) ∧
   keywords r = None ∧ error r = None) ∨
  (status r = py "blocked" ∧ (∃ kws, keywords r = Some kws ∧ kws ≠ []) ∧
   is_Some (http_status r) ∧ redirect_to r = None ∧ error r = None) ∨
  (status r = py "unknown" ∧ is_Some (http_status r) ∧
   redirect_to r = None ∧ keywords r = None ∧ error r = None) ∨
  (status r = py "error" ∧ is_Some (error r) ∧ http_status r = None ∧
   redirect_to r = None ∧ keywords r = None).

(** Characters [quote_plus] can produce: the unreserved ones, [+] and [%]. *)
Definition url_safe (c : N) : bool :=
  always_safe c || (c =? 43)%N || (c =? 37)%N.

(** ** What the domain pattern matches *)

(** The strings a pattern matches, word boundaries aside. *)
Inductive lang : Regex → pystr → Prop :=
| lang_Class p c : p c = true → lang (Class p) [c]
| lang_WordBoundary : lang WordBoundary []
| lang_Seq r1 r2 w1 w2 : lang r1 w1 → lang r2 w2 → lang (Seq r1 r2) (w1 ++ w2)
| lang_Star_nil r : lang (Star r) []
| lang_Star_cons r w1 w2 :
    lang r w1 → lang (Star r) w2 → lang (Star r) (w1 ++ w2).

(** The character before the position reached after reading [w]. *)
Definition prev_after (prev : option N) (w : pystr) : option N :=
  match last w with
  | Some c => Some c
  | None => prev
  end.

(** A domain name over given character classes: one or more labels, each a
    [first] character followed by [inner] characters and then a dot, and a
    top-level name of at least two [top] characters. *)
Definition is_label (first inner : N → bool) (l : pystr) : Prop :=
  ∃ c l', l = c :: l' ∧ first c = true ∧ Forall (λ x, inner x = true) l'.

Definition is_tld (top : N → bool) (t : pystr) : Prop :=
  (2 ≤ length t)%nat ∧ Forall (λ x, top x = true) t.

Definition domain_shape (first inner top : N → bool) (m : pystr) : Prop :=
  ∃ labels tld,
    labels ≠ [] ∧ Forall (is_label first inner) labels ∧ is_tld top tld ∧
    m = concat ((λ l, l ++ [46%N]) <$> labels) ++ tld.

(** [[a-z0-9]] and [[a-z0-9-]]. *)
Definition lower_alnum (c : N) : bool := is_lower c || is_digit c.
Definition lower_alnum_dash (c : N) : bool := lower_alnum c || (c =? 45)%N.

(** Neither the character before nor the one after is a word character. *)
Definition delimited (unicode_alnum : N → bool) (before : option N)
    (after : pystr) : Prop :=
  from_option (is_word unicode_alnum) false before = false ∧
  from_option (is_word unicode_alnum) false (head after) = false.

(** [ms] are substrings of [text] that follow one another, left to right,
    without overlapping; each of them, with the character before it and
    the text after it, satisfies [P]. [prev] is the character before
    [text]. *)
Inductive tiles (P : option N → pystr → pystr → Prop)
  : option N → pystr → list pystr → Prop :=
| tiles_nil prev text : tiles P prev text []
| tiles_cons prev gap m rest ms :
    P (prev_after prev gap) m rest →
    tiles P (prev_after prev (gap ++ m)) rest ms →
    tiles P prev (gap ++ m ++ rest) (m :: ms).

(** ** What a run reports *)

(** The task a [resultReady] signal is about, and the [checked] value a
    [statsUpdate] signal carries. *)
Definition result_url (sg : Signal) : option pystr :=
  match sg with resultReady url _ => Some url | _ => None end.

Definition stats_value (sg : Signal) : option Z :=
  match sg with statsUpdate _ c _ _ => Some c | _ => None end.

Definition result_urls (out : list Signal) : list pystr := omap result_url out.
Definition stats_values (out : list Signal) : list Z := omap stats_value out.

(** The task a thread has popped and not yet reported, and the snapshot it
    has taken and not yet emitted. *)
Definition in_hand (f : Frame) : option pystr :=
  match f with
  | AtCheck url | AtUpdate url _ | AtEmitResult url _ _ _ _ _ => Some url
  | _ => None
  end.

Definition pending_stats (f : Frame) : option Z :=
  match f with
  | AtEmitResult _ _ _ c _ _ | AtEmitStats _ _ _ c _ _ => Some c
  | _ => None
  end.

(** 1 where the two are equal, 0 elsewhere. *)
Definition indicator {A : Type} `{EqDecision A} (x y : A) : Z :=
  if decide (x = y) then 1 else 0.

Definition opt_weight {A : Type} (w : A → Z) (o : option A) : Z :=
  from_option w 0 o.

(** 1 for a status equal to [wanted], on a [resultReady] signal and on a
    thread about to emit one. *)
Definition status_signal (wanted : pystr) (sg : Signal) : Z :=
  match sg with
  | resultReady _ status => if pystr_eqb status wanted then 1 else 0
  | _ => 0
  end.

Definition status_frame (wanted : pystr) (f : Frame) : Z :=
  match f with
  | AtEmitResult _ status _ _ _ _ => if pystr_eqb status wanted then 1 else 0
  | _ => 0
  end.

Section Reports.

Variable urls : list pystr.

(** How the signals emitted so far account for the tasks and the counters. *)
Record report_inv (self : WorkerManager) (out : list Signal) : Prop := {
  rep_tasks : ∀ u,
    total_of (λ sg, opt_weight (indicator u) (result_url sg)) out
      + total_of (λ f, opt_weight (indicator u) (in_hand f)) (_threads self)
      + total_of (indicator u) (_queue self)
    = total_of (indicator u) urls;
  rep_checked : 0 ≤ checked self;
  rep_results :
    total_of (λ sg, opt_weight (λ _, 1) (result_url sg)) out
      + total_of (λ f, match f with AtEmitResult _ _ _ _ _ _ => 1 | _ => 0 end)
          (_threads self)
    = checked self;
  rep_stats :
    total_of (λ sg, opt_weight (λ _, 1) (stats_value sg)) out
      + total_of (λ f, opt_weight (λ _, 1) (pending_stats f)) (_threads self)
    = checked self;
  rep_ok :
    total_of (status_signal (py "ok")) out
      + total_of (status_frame (py "ok")) (_threads self)
    = normal self;
  rep_blocked :
    total_of (status_signal (py "blocked")) out
      + total_of (status_frame (py "blocked")) (_threads self)
    = blocked self;
  rep_values : ∀ k,
    total_of (λ sg, opt_weight (indicator k) (stats_value sg)) out
      + total_of (λ f, opt_weight (indicator k) (pending_stats f)) (_threads self)
    = if decide (1 ≤ k ≤ checked self) then 1 else 0
}.

End Reports.

(** The tasks reported with a given status, in the order reported. *)
Definition results_with (wanted : pystr) (out : list Signal) : list pystr :=
  omap (λ sg, match sg with
              | resultReady url status =>
                  if pystr_eqb status wanted then Some url else None
              | _ => None
              end) out.
(** * Properties *)

(** ** Strings *)

Lemma startswith_spec (p s : pystr) :
  startswith p s = true ↔ ∃ post, s = p ++ post.
Proof.
  revert s. induction p as [|a p IH]; intros s; simpl.
  - split; [intros _; by exists s | done].
  - destruct s as [|b s]; simpl.
    + split; [done | intros [post Hp]; discriminate].
    + rewrite andb_true_iff, N.eqb_eq, IH. split.
      * intros [-> [post ->]]. by exists post.
      * intros [post Hp]. injection Hp as -> ->. eauto.
Qed.

Lemma str_in_unfold (kw text : pystr) :
  str_in kw text =
  startswith kw text || match text with [] => false | _ :: t => str_in kw t end.
Proof. by destruct text. Qed.

Lemma str_in_spec (kw text : pystr) :
  str_in kw text = true ↔ occurs_in kw text.
Proof.
  unfold occurs_in. induction text as [|c text IH]; rewrite str_in_unfold.
  - rewrite orb_false_r, startswith_spec. split.
    + intros [post Hp]. by exists [], post.
    + intros (pre & post & Hp). destruct pre; [by exists post | discriminate].
  - rewrite orb_true_iff, startswith_spec, IH. split.
    + intros [[post Hp] | (pre & post & ->)].
      * by exists [], post.
      * by exists (c :: pre), post.
    + intros (pre & post & Hp). destruct pre as [|c' pre].
      * left. by exists post.
      * right. injection Hp as -> ->. by exists pre, post.
Qed.

Lemma selects_filter (text : pystr) (kws : list pystr) :
  selects (λ kw, occurs_in kw text) kws (List.filter (λ kw, str_in kw text) kws).
Proof.
  induction kws as [|kw kws IH]; simpl; [constructor|].
  destruct (str_in kw text) eqn:E.
  - apply selects_keep; [by apply str_in_spec | done].
  - apply selects_skip; [|done]. intros H. apply str_in_spec in H. congruence.
Qed.

Lemma selects_elem_of (P : pystr → Prop) (l hits : list pystr) :
  selects P l hits → ∀ x, x ∈ hits ↔ x ∈ l ∧ P x.
Proof.
  induction 1 as [|x l hits HP _ IH|x l hits HP _ IH]; intros y.
  - rewrite elem_of_nil. tauto.
  - rewrite !elem_of_cons, IH. split; [|tauto].
    intros [->|[? ?]]; tauto.
  - rewrite elem_of_cons, IH. split; [tauto|].
    intros [[->|?] ?]; tauto.
Qed.

Lemma selects_sublist (P : pystr → Prop) (l hits : list pystr) :
  selects P l hits → sublist hits l.
Proof. induction 1; by constructor. Qed.

(** ** The classifier *)

Section ClassifierFacts.

Variable requests_get : pystr -> Z -> HttpOutcome.

Lemma check_douyin_jump_eq target timeout :
  check_douyin_jump requests_get target timeout =
  (match requests_get (DOUYIN_CHECK_URL_TEMPLATE (quote_plus target)) timeout with
   | RequestException exc => error_result exc
   | Responded resp => decide_response DOUYIN_BLOCK_KEYWORDS resp
   end, [DOUYIN_CHECK_URL_TEMPLATE (quote_plus target)]).
Proof.
  unfold check_douyin_jump, decide_response. cbv zeta.
  by repeat case_match.
Qed.

Lemma check_weibo_jump_eq target timeout :
  check_weibo_jump requests_get target timeout =
  (match requests_get (WEIBO_CHECK_URL_TEMPLATE (quote_plus target)) timeout with
   | RequestException exc => error_result exc
   | Responded resp => decide_response weibo_block_keywords resp
   end, [WEIBO_CHECK_URL_TEMPLATE (quote_plus target)]).
Proof.
  unfold check_weibo_jump, decide_response. cbv zeta.
  by repeat case_match.
Qed.

End ClassifierFacts.

Lemma redirect_guard (resp : Response) (o : option pystr) :
  (if (300 <=? status_code resp) && (status_code resp <? 400)
   then headers_get (py "Location") (headers resp) else None) = o →
  match o with
  | Some location =>
      300 ≤ status_code resp < 400 ∧
      headers_get (py "Location") (headers resp) = Some location
  | None =>
      ¬ (300 ≤ status_code resp < 400 ∧
         is_Some (headers_get (py "Location") (headers resp)))
  end.
Proof.
  destruct (_ && _) eqn:E.
  - apply andb_true_iff in E as [?%Z.leb_le ?%Z.ltb_lt].
    intros <-. destruct (headers_get _ _) eqn:Hget; [done|].
    intros [_ [? ?]]. congruence.
  - apply andb_false_iff in E. intros <-. intros [? _].
    destruct E as [?%Z.leb_gt | ?%Z.ltb_ge]; lia.
Qed.

Lemma hits_nonempty (kws : list pystr) (body : pystr) :
  List.filter (λ kw, str_in kw body) kws ≠ [] ↔
  ∃ kw, kw ∈ kws ∧ occurs_in kw body.
Proof.
  pose proof (selects_elem_of _ _ _ (selects_filter body kws)) as Hin. split.
  - intros H. destruct (List.filter _ kws) as [|kw l]; [done|].
    exists kw. apply Hin. left.
  - intros (kw & Hk) E. apply Hin in Hk. rewrite E in Hk.
    by apply not_elem_of_nil in Hk.
Qed.

Lemma decide_response_table (kws : list pystr) (resp : Response) :
  let code := status_code resp in
  let redirect :=
    300 ≤ code < 400 ∧ is_Some (headers_get (py "Location") (headers resp)) in
  let hit := ∃ kw, kw ∈ kws ∧ occurs_in kw (or_empty (text resp)) in
  (∀ location, 300 ≤ code < 400 →
     headers_get (py "Location") (headers resp) = Some location →
     decide_response kws resp = ok_result location code) ∧
  (¬ redirect → hit →
     decide_response kws resp =
     blocked_result (List.filter (λ kw, str_in kw (or_empty (text resp))) kws) code) ∧
  (¬ redirect → ¬ hit → decide_response kws resp = unknown_result code).
Proof.
  cbv zeta. unfold decide_response.
  destruct (if (_ && _) then headers_get _ _ else None) as [loc|] eqn:G;
    apply redirect_guard in G.
  - destruct G as [Hr Hl]. split_and!.
    + intros location _ Hl'. congruence.
    + intros Hn. destruct Hn. by rewrite Hl.
    + intros Hn. destruct Hn. by rewrite Hl.
  - pose proof (hits_nonempty kws (or_empty (text resp))) as Hne.
    split_and!.
    + intros location Hr Hl. destruct G. by rewrite Hl.
    + intros _ Hhit. apply Hne in Hhit. by case_match.
    + intros _ Hhit. case_match eqn:E; [done|].
      destruct Hhit. by apply Hne.
Qed.

Lemma or_empty_body (resp : Response) :
  or_empty (text resp) = response_body resp.
Proof. unfold or_empty, response_body. by destruct (text resp) as [[|c s]|]. Qed.




Lemma decide_response_blocked (kws : list pystr) (resp : Response) :
  status (decide_response kws resp) = py "blocked" →
  ∃ hits, keywords (decide_response kws resp) = Some hits ∧
          hits = List.filter (λ kw, str_in kw (or_empty (text resp))) kws ∧
          hits ≠ [].
Proof.
  unfold decide_response.
  repeat case_match; simpl; intros Hst; try (vm_compute in Hst; discriminate Hst).
  all: eexists; split_and!; [done|done|congruence].
Qed.

Lemma exact_keywords_of_eq (requests_get : pystr → Z → HttpOutcome)
    (check : pystr → Z → CheckResult * list pystr)
    (template : pystr → pystr) (kws : list pystr) :
  (∀ target timeout,
     check target timeout =
     (match requests_get (template (quote_plus target)) timeout with
      | RequestException exc => error_result exc
      | Responded resp => decide_response kws resp
      end, [template (quote_plus target)])) →
  matched_keywords_exact requests_get check template kws.
Proof.
  intros Heq target timeout. cbv zeta. rewrite Heq. simpl.
  destruct (requests_get _ _) as [exc|resp]; [discriminate|].
  intros Hb. apply decide_response_blocked in Hb as (hits & Hk & -> & Hne).
  exists resp, (List.filter (λ kw, str_in kw (or_empty (text resp))) kws).
  pose proof (selects_filter (or_empty (text resp)) kws) as Hsel.
  split_and!; try done.
  - by apply selects_elem_of.
  - by eapply selects_sublist.
Qed.

(** C6. Whenever a classifier answers [blocked], the request was answered by
    a response, and the [keywords] entry holds exactly the provider's block
    keywords that occur in the body as (case-sensitive, contiguous)
    substrings, in the order the provider declares them; that list is not
    empty. *)
Theorem blocked_keywords_exact (requests_get : pystr → Z → HttpOutcome) :
  matched_keywords_exact requests_get (check_douyin_jump requests_get)
    DOUYIN_CHECK_URL_TEMPLATE DOUYIN_BLOCK_KEYWORDS ∧
  matched_keywords_exact requests_get (check_weibo_jump requests_get)
    WEIBO_CHECK_URL_TEMPLATE weibo_block_keywords.
Proof.
  split; apply exact_keywords_of_eq; intros target timeout.
  - apply check_douyin_jump_eq.
  - apply check_weibo_jump_eq.
Qed.

Lemma blocked_keywords_exact_witness :
  ∃ hits,
    keywords (check_douyin_jump (serving 200 (py "已停止 第三方网页")) (py "x.com") 10).1
    = Some hits ∧ hits ≠ [] ∧ py "停止" ∈ hits.
Proof.
  destruct (blocked_keywords_exact (serving 200 (py "已停止 第三方网页")))
    as [Hdouyin _].
  destruct (Hdouyin (py "x.com") 10)
    as (resp & hits & Hget & Hk & _ & Hin & _ & Hne); [vm_compute; reflexivity|].
  exists hits. split_and!; [done|done|].
  injection Hget as <-. apply Hin. split.
  - unfold DOUYIN_BLOCK_KEYWORDS. rewrite !elem_of_cons. auto.
  - apply str_in_spec. vm_compute. reflexivity.
Defined.

(** ** [start] *)

Lemma drain_nil (q : list pystr) : drain q = [].
Proof. by induction q. Qed.

Lemma put_all_app (q urls : list pystr) : put_all q urls = q ++ urls.
Proof.
  unfold put_all. revert q. induction urls as [|u urls IH]; intros q; simpl.
  - by rewrite app_nil_r.
  - by rewrite IH, <- app_assoc.
Qed.

(** C7. [start] sets [total] to the number of tasks and the other counters to
    zero, clears both control flags, leaves in the queue exactly the given
    tasks in the given order whatever it held before, and creates as many
    worker threads as asked for, each at the entry of the worker loop. *)
Theorem start_resets (self : WorkerManager) (urls : list pystr)
    (num_threads : Z) (mode' : pystr) :
  0 ≤ num_threads →
  let s := start self urls num_threads mode' in
  snapshot s = (Z.of_nat (length urls), 0, 0, 0) ∧
  _stop s = false ∧ _pause s = false ∧
  _queue s = urls ∧
  Z.of_nat (length (_threads s)) = num_threads ∧
  Forall (λ f, f = AtLoopHead) (_threads s) ∧
  _active_threads s = num_threads ∧
  mode s = mode'.
Proof.
  intros Hn. simpl. unfold snapshot, spawn. simpl.
  rewrite drain_nil, put_all_app, length_replicate. split_and!; try done.
  - lia.
  - apply Forall_replicate. done.
Qed.

Lemma start_resets_witness :
  let s := start (with_queue [py "old.example"] init)
             [py "a.com"; py "b.com"] 3 (py "weibo") in
  snapshot s = (2, 0, 0, 0) ∧ _queue s = [py "a.com"; py "b.com"] ∧
  Z.of_nat (length (_threads s)) = 3.
Proof.
  pose proof (start_resets (with_queue [py "old.example"] init)
                [py "a.com"; py "b.com"] 3 (py "weibo")) as H.
  destruct H as (H1 & _ & _ & H2 & H3 & _); [lia|].
  split_and!; [exact H1 | exact H2 | exact H3].
Defined.

(** ** Sums of weights *)

Section TotalOf.

Context {A : Type} (w : A → Z).

Lemma total_of_replicate (n : nat) (x : A) :
  total_of w (replicate n x) = Z.of_nat n * w x.
Proof. induction n as [|n IH]; simpl; [done|]. rewrite IH. lia. Qed.

Lemma total_of_insert (l : list A) (i : nat) (x y : A) :
  l !! i = Some x →
  total_of w (<[i := y]> l) = total_of w l - w x + w y.
Proof.
  revert i. induction l as [|z l IH]; intros [|i] Hi; simplify_eq/=.
  - lia.
  - rewrite (IH i Hi). lia.
Qed.

Lemma total_of_bounds (l : list A) :
  (∀ x, 0 ≤ w x ≤ 1) → 0 ≤ total_of w l ≤ Z.of_nat (length l).
Proof.
  intros Hw. induction l as [|x l IH]; simpl; [lia|].
  specialize (Hw x). lia.
Qed.

Lemma total_of_zero (l : list A) :
  Forall (λ x, w x = 0) l → total_of w l = 0.
Proof. induction 1 as [|x l Hx _ IH]; simpl; lia. Qed.

Lemma total_of_lookup_le (l : list A) (i : nat) (x : A) :
  (∀ x, 0 ≤ w x) → l !! i = Some x → w x ≤ total_of w l.
Proof.
  intros Hw. revert i. induction l as [|z l IH]; intros [|i] Hi; simplify_eq/=.
  - assert (0 ≤ total_of w l); [|lia].
    clear IH. induction l as [|y l IH]; simpl; [lia|]. specialize (Hw y). lia.
  - specialize (IH i Hi). specialize (Hw z). lia.
Qed.

End TotalOf.

Lemma exited_bounds (f : Frame) : 0 ≤ exited f ≤ 1.
Proof. destruct f; simpl; lia. Qed.

Lemma in_flight_bounds (f : Frame) : 0 ≤ in_flight f ≤ 1.
Proof. destruct f; simpl; lia. Qed.

Lemma all_exited_total (self : WorkerManager) :
  all_exited self ↔
  total_of exited (_threads self) = Z.of_nat (length (_threads self)).
Proof.
  unfold all_exited. induction (_threads self) as [|f l IH]; simpl.
  - split; [done | constructor].
  - pose proof (total_of_bounds exited l exited_bounds).
    rewrite Forall_cons, IH. destruct f; simpl; split; intros; try lia;
      try (destruct_and?; done).
    split; [done | lia].
Qed.

(** A live thread leaves room among the exited ones. *)
Lemma exited_room (l : list Frame) (i : nat) (f : Frame) :
  l !! i = Some f → exited f = 0 →
  total_of exited l + 1 ≤ Z.of_nat (length l).
Proof.
  intros Hi Hf.
  pose proof (total_of_bounds exited (<[i := Exited]> l) exited_bounds) as Hb.
  rewrite (total_of_insert _ _ _ _ _ Hi), length_insert in Hb. simpl in Hb. lia.
Qed.

Lemma finished_count_app (out1 out2 : list Signal) :
  finished_count (out1 ++ out2) = (finished_count out1 + finished_count out2)%nat.
Proof. unfold finished_count. by rewrite List.filter_app, length_app. Qed.

Lemma task_signals_app (out1 out2 : list Signal) :
  task_signals (out1 ++ out2) = (task_signals out1 + task_signals out2)%nat.
Proof. unfold task_signals. by rewrite List.filter_app, length_app. Qed.

(** ** The invariant of a run *)

(** The routine part of re-establishing the invariant after thread [i], whose
    frame is recorded by [Hi], has moved. *)
Ltac inv_step_with Hi tac :=
  constructor; simpl;
  try match goal with H : _queue _ = _ |- _ => rewrite ?H in * end;
  rewrite ?(total_of_insert _ _ _ _ _ Hi), ?length_insert, ?app_nil_r,
    ?finished_count_app, ?task_signals_app, ?Forall_app;
  unfold finished_count, task_signals, good_snapshot in *;
  simpl in *; tac; try done; try lia;
  try (apply Forall_insert; [done|]; simpl; repeat split; try done; try lia);
  try (split; [done|]; repeat constructor; simpl; try done; try lia);
  try (intros ?;
       first [ by left | by right
             | match goal with
               | H : _ → _ ∨ _ |- _ =>
                   destruct H as [?|?];
                   [lia | by left | first [by right | congruence]]
               end ]).

Ltac inv_step Hi := inv_step_with Hi idtac.

Lemma py_ok_blocked : py "ok" ≠ py "blocked".
Proof. vm_compute. discriminate. Qed.

Section InvariantFacts.

Variable requests_get : pystr → Z → HttpOutcome.
Variable urls : list pystr.
Variable num_threads : Z.
Variable the_mode : pystr.

Local Abbreviation outcome_of := (outcome requests_get the_mode).
Local Abbreviation ok_of := (ok_weight requests_get the_mode).
Local Abbreviation blocked_of := (blocked_weight requests_get the_mode).
Local Abbreviation Inv := (pool_inv requests_get urls num_threads the_mode).

Lemma weights_bounds (url : pystr) :
  0 ≤ ok_of url ∧ 0 ≤ blocked_of url ∧ ok_of url + blocked_of url ≤ 1.
Proof.
  unfold ok_weight, blocked_weight, pystr_eqb.
  repeat case_bool_decide; try lia.
  pose proof py_ok_blocked. congruence.
Qed.

Lemma count_normal (status : pystr) (self : WorkerManager) (url : pystr) :
  status = outcome_of url →
  normal (count status self) = normal self + ok_of url.
Proof.
  intros ->. unfold ok_weight, count. cbn [normal]. case_match; lia.
Qed.

Lemma count_blocked (status : pystr) (self : WorkerManager) (url : pystr) :
  status = outcome_of url →
  blocked (count status self) = blocked self + blocked_of url.
Proof.
  intros ->. unfold blocked_weight, count, pystr_eqb. cbn [blocked].
  repeat case_bool_decide; try lia.
  pose proof py_ok_blocked. congruence.
Qed.

Lemma attempt_outcome (url : pystr) :
  match attempt requests_get the_mode url with
  | Returned status => status = outcome_of url
  | Raised _ => py "error" = outcome_of url
  end.
Proof. unfold outcome. by destruct (attempt _ _ _). Qed.

Lemma start_inv (self : WorkerManager) :
  Inv (start self urls num_threads the_mode) [].
Proof.
  constructor; simpl; unfold spawn;
    rewrite ?drain_nil, ?put_all_app, ?length_replicate, ?total_of_replicate;
    simpl; try done; try lia.
  - apply Forall_replicate. done.
  - unfold finished_count. simpl. lia.
  - unfold task_signals. simpl. lia.
Qed.

Lemma worker_step_inv (i : nat) (s s' : WorkerManager) (out o : list Signal) :
  Inv s out → worker_step requests_get i s = Some (s', o) → Inv s' (out ++ o).
Proof.
  intros Hinv Hstep. unfold worker_step, _thread_entry, _worker_loop in Hstep.
  destruct (_threads s !! i) as [f|] eqn:Hi; [|done].
  pose proof (Forall_lookup_1 _ _ _ _ (inv_frames _ _ _ _ _ _ Hinv) Hi) as Hf.
  pose proof (exited_room _ _ _ Hi) as Hroom.
  pose proof (total_of_lookup_le in_flight _ _ _ (λ x, proj1 (in_flight_bounds x)) Hi)
    as Hheld.
  destruct Hinv.
  destruct f; simpl in *.
  - destruct (_stop s) eqn:Hstop; injection Hstep as <- <-; inv_step Hi.
  - destruct (_pause s && negb (_stop s)); injection Hstep as <- <-;
      [|inv_step Hi].
    rewrite app_nil_r. by constructor.
  - destruct (_queue s) as [|url q] eqn:Hq; injection Hstep as <- <-;
      inv_step Hi.
  - rewrite inv_mode0 in Hstep. pose proof (attempt_outcome url) as Ha.
    destruct (attempt _ _ _) as [status|exc]; injection Hstep as <- <-;
      inv_step Hi.
  - pose proof (count_normal _ s _ Hf) as Hn.
    pose proof (count_blocked _ s _ Hf) as Hb.
    pose proof (weights_bounds url) as Hw. simpl in Hn, Hb.
    injection Hstep as <- <-.
    inv_step_with Hi ltac:(rewrite ?Hn, ?Hb).
  - destruct Hf as [Hf Hsnap]. injection Hstep as <- <-. inv_step Hi.
  - destruct Hf as [Hf Hsnap]. injection Hstep as <- <-. inv_step Hi.
  - injection Hstep as <- <-. inv_step Hi.
  - injection Hstep as <- <-. specialize (Hroom eq_refl).
    pose proof (total_of_bounds exited (_threads s) exited_bounds) as Hex.
    destruct (Z.leb_spec (_active_threads s - 1) 0); inv_step Hi.
  - done.
Qed.

Lemma act_inv (a : Action) (s s' : WorkerManager) (out o : list Signal) :
  Inv s out → act requests_get a s = Some (s', o) → Inv s' (out ++ o).
Proof.
  destruct a as [i| | |]; simpl; [apply worker_step_inv| | |];
    intros [] [= <- <-]; rewrite app_nil_r; constructor; simpl; try done.
  intros _. by left.
Qed.

Lemma run_inv (sched : list Action) (s s' : WorkerManager) (out o : list Signal) :
  Inv s out → run requests_get sched s = Some (s', o) → Inv s' (out ++ o).
Proof.
  revert s out o. induction sched as [|a sched IH]; intros s out o Hinv; simpl.
  - intros [= <- <-]. by rewrite app_nil_r.
  - destruct (act requests_get a s) as [[s1 o1]|] eqn:Hact; [|done].
    destruct (run requests_get sched s1) as [[s2 o2]|] eqn:Hrun; [|done].
    intros [= <- <-]. rewrite app_assoc.
    eapply IH; [|done]. by eapply act_inv.
Qed.

(** Every point of a run of [start urls num_threads the_mode] satisfies the
    invariant. *)
Lemma reachable_inv (self : WorkerManager) (sched : list Action)
    (s : WorkerManager) (out : list Signal) :
  run requests_get sched (start self urls num_threads the_mode) = Some (s, out) →
  Inv s out.
Proof. intros Hrun. by apply (run_inv _ _ _ [] _ (start_inv self)) in Hrun. Qed.

End InvariantFacts.

(** ** Steps and schedules *)

Section RunFacts.

Variable requests_get : pystr → Z → HttpOutcome.

Local Abbreviation Step := (worker_step requests_get).
Local Abbreviation Act := (act requests_get).
Local Abbreviation Run := (run requests_get).

Lemma run_app (sched1 sched2 : list Action) (s : WorkerManager) :
  Run (sched1 ++ sched2) s =
  match Run sched1 s with
  | None => None
  | Some (s1, o1) =>
      match Run sched2 s1 with
      | None => None
      | Some (s2, o2) => Some (s2, o1 ++ o2)
      end
  end.
Proof.
  revert s. induction sched1 as [|a sched1 IH]; intros s; simpl.
  - by destruct (Run sched2 s) as [[? ?]|].
  - destruct (Act a s) as [[s1 o1]|]; [|done]. rewrite IH.
    destruct (Run sched1 s1) as [[s2 o2]|]; [|done].
    destruct (Run sched2 s2) as [[s3 o3]|]; [|done].
    by rewrite app_assoc.
Qed.

(** A worker step never touches the control flags or [total], and never
    lowers a counter. *)
Lemma worker_step_frame (i : nat) (s s' : WorkerManager) (o : list Signal) :
  Step i s = Some (s', o) →
  _stop s' = _stop s ∧ _pause s' = _pause s ∧ total s' = total s ∧
  mode s' = mode s ∧ length (_threads s') = length (_threads s) ∧
  checked s ≤ checked s' ≤ checked s + 1 ∧
  normal s ≤ normal s' ∧ blocked s ≤ blocked s'.
Proof.
  unfold worker_step, _thread_entry, _worker_loop. intros Hstep.
  destruct (_threads s !! i) as [f|]; [|done].
  destruct f; simpl in Hstep; repeat case_match; simplify_eq; simpl;
    rewrite ?length_insert; repeat split; try done; try lia;
    repeat case_match; lia.
Qed.

Lemma act_monotone (a : Action) (s s' : WorkerManager) (o : list Signal) :
  Act a s = Some (s', o) →
  total s' = total s ∧ checked s ≤ checked s' ∧
  normal s ≤ normal s' ∧ blocked s ≤ blocked s' ∧
  (_stop s = true → _stop s' = true).
Proof.
  destruct a as [i| | |]; simpl.
  - intros H%worker_step_frame. destruct_and!. split_and!; try done; try lia.
    congruence.
  - intros [= <- <-]. simpl. split_and!; done || lia.
  - intros [= <- <-]. simpl. split_and!; done || lia.
  - intros [= <- <-]. simpl. split_and!; done || lia.
Qed.

Lemma run_monotone (sched : list Action) (s s' : WorkerManager) (o : list Signal) :
  Run sched s = Some (s', o) →
  total s' = total s ∧ checked s ≤ checked s' ∧
  normal s ≤ normal s' ∧ blocked s ≤ blocked s' ∧
  (_stop s = true → _stop s' = true).
Proof.
  revert s o. induction sched as [|a sched IH]; intros s o; simpl.
  - intros [= <- <-]. split_and!; done || lia.
  - destruct (Act a s) as [[s1 o1]|] eqn:Hact; [|done].
    destruct (Run sched s1) as [[s2 o2]|] eqn:Hrun; [|done].
    intros [= <- <-]. apply act_monotone in Hact. apply IH in Hrun.
    destruct_and!. split_and!; try lia; try congruence. auto.
Qed.

(** Without a call of [stop] in the schedule the flag stays as it was. *)
Lemma run_no_stop (sched : list Action) (s s' : WorkerManager) (o : list Signal) :
  Stop ∉ sched → Run sched s = Some (s', o) → _stop s' = _stop s.
Proof.
  revert s o. induction sched as [|a sched IH]; intros s o Hno; simpl.
  - by intros [= <- <-].
  - apply not_elem_of_cons in Hno as [Ha Hno].
    destruct (Act a s) as [[s1 o1]|] eqn:Hact; [|done].
    destruct (Run sched s1) as [[s2 o2]|] eqn:Hrun; [|done].
    intros [= <- <-]. rewrite (IH _ _ Hno Hrun).
    destruct a as [i| | |]; simpl in Hact; try done.
    + by apply worker_step_frame in Hact as (? & _).
    + by injection Hact as <- <-.
    + by injection Hact as <- <-.
Qed.

Lemma rank_nonneg (f : Frame) : 0 ≤ rank f.
Proof. destruct f; simpl; lia. Qed.

Lemma effort_nonneg (s : WorkerManager) : 0 ≤ effort s.
Proof.
  unfold effort.
  assert (0 ≤ total_of rank (_threads s)); [|lia].
  induction (_threads s) as [|f l IH]; simpl; [lia|].
  pose proof (rank_nonneg f). lia.
Qed.

(** Unless it sleeps in the pause loop, a worker step uses up effort. *)
Lemma worker_step_effort (i : nat) (s s' : WorkerManager) (o : list Signal) :
  _pause s = false ∨ _stop s = true →
  Step i s = Some (s', o) → effort s' + 1 ≤ effort s.
Proof.
  unfold worker_step, _thread_entry, _worker_loop, effort. intros Hflags Hstep.
  destruct (_threads s !! i) as [f|] eqn:Hi; [|done].
  destruct f; simpl in Hstep; repeat case_match; simplify_eq; simpl;
    rewrite ?(total_of_insert _ _ _ _ _ Hi); simpl; try lia.
  - destruct Hflags as [Hp|Hs]; [rewrite Hp in *|rewrite Hs, andb_false_r in *];
      done.
  - match goal with H : _queue s = _ |- _ => rewrite H end. simpl. lia.
Qed.

(** A thread that has not exited can always take a step. *)
Lemma worker_step_enabled (i : nat) (s : WorkerManager) (f : Frame) :
  _threads s !! i = Some f → f ≠ Exited → is_Some (Step i s).
Proof.
  unfold worker_step, _thread_entry, _worker_loop. intros -> Hf.
  destruct f; try done; repeat case_match; eauto.
Qed.

Lemma worker_step_none (i : nat) (s : WorkerManager) :
  Step i s = None ↔ _threads s !! i = None ∨ _threads s !! i = Some Exited.
Proof.
  split.
  - destruct (_threads s !! i) as [f|] eqn:Hi; [|by left].
    destruct (decide (f = Exited)) as [->|Hf]; [by right|].
    intros Hn. destruct (worker_step_enabled i s f Hi Hf) as [? ?]. congruence.
  - unfold worker_step. by intros [-> | ->].
Qed.

(** When no worker can step, all have exited. *)
Lemma stuck_all_exited (s : WorkerManager) :
  (∀ i, Step i s = None) → all_exited s.
Proof.
  intros Hstuck. apply Forall_lookup. intros i f Hi.
  destruct (proj1 (worker_step_none i s) (Hstuck i)); congruence.
Qed.

Lemma not_all_exited (s : WorkerManager) :
  ¬ all_exited s → ∃ i, is_Some (Step i s).
Proof.
  intros Hn. apply not_Forall_Exists in Hn; [|intros f; apply _].
  apply Exists_exists in Hn as (f & Hin & Hf).
  apply list_elem_of_lookup in Hin as [i Hi].
  exists i. by eapply worker_step_enabled.
Qed.

(** Worker-only schedules are bounded by the effort when nobody sleeps. *)
Lemma workers_bounded (ws : list nat) (s s' : WorkerManager) (o : list Signal) :
  _pause s = false ∨ _stop s = true →
  Run (Worker <$> ws) s = Some (s', o) →
  Z.of_nat (length ws) + effort s' ≤ effort s.
Proof.
  revert s o. induction ws as [|i ws IH]; intros s o Hflags; csimpl.
  - intros [= <- <-]. lia.
  - destruct (Step i s) as [[s1 o1]|] eqn:Hstep; [|done].
    destruct (Run (Worker <$> ws) s1) as [[s2 o2]|] eqn:Hrun; [|done].
    intros [= <- <-].
    pose proof (worker_step_effort _ _ _ _ Hflags Hstep).
    apply worker_step_frame in Hstep as (Hs & Hp & _).
    apply IH in Hrun; [lia|]. by rewrite Hs, Hp.
Qed.

(** ... and some worker-only schedule lets every worker exit. *)
Lemma workers_can_finish (s : WorkerManager) :
  _pause s = false ∨ _stop s = true →
  ∃ ws s' o, Run (Worker <$> ws) s = Some (s', o) ∧ all_exited s'.
Proof.
  pose proof (effort_nonneg s) as Hnn.
  remember (Z.to_nat (effort s)) as k eqn:Hk.
  revert s Hnn Hk. induction k as [k IH] using lt_wf_ind. intros s Hnn Hk Hflags.
  destruct (decide (all_exited s)) as [Hall|Hnot].
  - by exists [], s, [].
  - apply not_all_exited in Hnot as [i [[s1 o1] Hstep]].
    pose proof (worker_step_effort _ _ _ _ Hflags Hstep) as Hless.
    pose proof (worker_step_frame _ _ _ _ Hstep) as (Hs & Hp & _).
    destruct (IH (Z.to_nat (effort s1))) with (s := s1)
      as (ws & s2 & o2 & Hrun & Hall);
      [pose proof (effort_nonneg s1); lia | apply effort_nonneg | done
      | by rewrite Hs, Hp |].
    exists (i :: ws), s2, (o1 ++ o2). csimpl. by rewrite Hstep, Hrun.
Qed.

End RunFacts.

(** ** The counters during a run *)

Lemma finished_count_pos (out : list Signal) :
  finished ∈ out ↔ (0 < finished_count out)%nat.
Proof.
  unfold finished_count. induction out as [|sg out IH]; simpl.
  - rewrite elem_of_nil. lia.
  - rewrite elem_of_cons, IH. destruct sg; simpl; split; try lia;
      try (intros [?|?]; [done | lia]); try (intros ?; by right).
    intros _. by left.
Qed.

Lemma all_exited_no_weight (w : Frame → Z) (s : WorkerManager) :
  w Exited = 0 → all_exited s → total_of w (_threads s) = 0.
Proof.
  intros Hw Hall. apply total_of_zero.
  eapply Forall_impl; [exact Hall|]. by intros f ->.
Qed.

Section Completion.

Variable requests_get : pystr → Z → HttpOutcome.
Variable urls : list pystr.
Variable num_threads : Z.
Variable the_mode : pystr.

Local Abbreviation Inv := (pool_inv requests_get urls num_threads the_mode).

Lemma inv_checked_le (s : WorkerManager) (out : list Signal) :
  Inv s out → 0 ≤ checked s ≤ total s.
Proof.
  intros [].
  pose proof (total_of_bounds in_flight (_threads s) in_flight_bounds). lia.
Qed.

(** [finished] has been emitted exactly when there are workers and all of
    them have exited. *)
Lemma inv_finished_iff (s : WorkerManager) (out : list Signal) :
  Inv s out →
  (finished_count out ≤ 1)%nat ∧
  (finished_count out = 1%nat ↔ 0 < num_threads ∧ all_exited s).
Proof.
  intros [_ _ Hlen _ _ _ _ _ _ _ [Hle Hiff] _ _]. rewrite all_exited_total.
  split; [done|]. rewrite Hiff. lia.
Qed.

(** Once the workers of a run that was not stopped have all exited, the
    queue is empty and every task is counted. *)
Lemma inv_completed (s : WorkerManager) (out : list Signal) :
  Inv s out → 0 < num_threads → all_exited s → _stop s = false →
  _queue s = [] ∧
  snapshot s =
    (Z.of_nat (length urls), Z.of_nat (length urls),
     total_of (ok_weight requests_get the_mode) urls,
     total_of (blocked_weight requests_get the_mode) urls).
Proof.
  intros [Ht _ Hlen _ Hc _ Hnorm Hbl _ _ _ _ Hleave] Hn Hall Hstop.
  pose proof (all_exited_no_weight in_flight s eq_refl Hall) as Hfl.
  pose proof (all_exited_no_weight
                (held_weight (ok_weight requests_get the_mode)) s eq_refl Hall).
  pose proof (all_exited_no_weight
                (held_weight (blocked_weight requests_get the_mode)) s eq_refl Hall).
  assert (_queue s = []) as Hq.
  { destruct Hleave as [?|?]; [|congruence|done].
    apply all_exited_total in Hall.
    assert (total_of leaving (_threads s) = total_of exited (_threads s)); [|lia].
    unfold all_exited in *. clear -Hall.
    induction (_threads s) as [|f l IH]; simpl; [done|].
    pose proof (total_of_bounds exited l exited_bounds).
    destruct f; simpl in *; lia. }
  split; [done|]. rewrite Hq in *. simpl in *. unfold snapshot.
  repeat f_equal; lia.
Qed.

End Completion.

(** C2, as the code has it. At every point of a run: [total] is the number of
    tasks, [0 ≤ checked ≤ total] and [normal + blocked ≤ checked], in the
    pool and in every [statsUpdate] snapshot emitted so far; [checked] never
    decreases, from any earlier point of the run to a later one; and when
    [finished] has been emitted in a run that was not stopped,
    [checked = total]. *)
Theorem counters_invariant (requests_get : pystr → Z → HttpOutcome)
    (self : WorkerManager) (urls : list pystr) (num_threads : Z) (mode' : pystr)
    (sched : list Action) (s : WorkerManager) (out : list Signal) :
  run requests_get sched (start self urls num_threads mode') = Some (s, out) →
  (total s = Z.of_nat (length urls) ∧
   0 ≤ checked s ≤ total s ∧ normal s + blocked s ≤ checked s) ∧
  (∀ t c n b, statsUpdate t c n b ∈ out →
     t = total s ∧ 0 ≤ c ≤ t ∧ n + b ≤ c) ∧
  (∀ sched1 sched2 s1 out1,
     sched = sched1 ++ sched2 →
     run requests_get sched1 (start self urls num_threads mode') = Some (s1, out1) →
     checked s1 ≤ checked s) ∧
  (finished ∈ out → _stop s = false → checked s = total s).
Proof.
  intros Hrun. pose proof (reachable_inv _ _ _ _ _ _ _ _ Hrun) as Hinv.
  pose proof (inv_checked_le _ _ _ _ _ _ Hinv) as Hle.
  split; [|split; [|split]].
  - destruct Hinv as [? _ _ _ _ (? & ? & ? & ?) _ _ _ _ _ _ _]. lia.
  - intros t c n b Hin. destruct Hinv as [Ht _ _ _ _ _ _ _ _ Hsig _ _ _].
    pose proof (proj1 (Forall_forall _ _) Hsig _ Hin) as Hok.
    unfold signal_ok, good_snapshot in Hok. lia.
  - intros sched1 sched2 s1 out1 -> Hrun1. rewrite run_app, Hrun1 in Hrun.
    destruct (run requests_get sched2 s1) as [[s2 o2]|] eqn:Hrun2; [|done].
    injection Hrun as <- _. by apply run_monotone in Hrun2 as (_ & ? & _).
  - intros Hfin Hstop. apply finished_count_pos in Hfin.
    pose proof (inv_finished_iff _ _ _ _ _ _ Hinv) as [Hone Hiff].
    destruct Hiff as [[Hn Hall] _]; [lia|].
    pose proof (inv_completed _ _ _ _ _ _ Hinv Hn Hall Hstop) as [_ Hsnap].
    unfold snapshot in Hsnap. injection Hsnap as Ht Hc _ _. congruence.
Qed.

Lemma counters_invariant_witness :
  let net := serving 200 (py "hello") in
  let s0 := start init [py "a.com"; py "b.com"] 2 (py "douyin") in
  ∃ s out,
    run net (round_robin net 60 0 0 s0) s0 = Some (s, out) ∧
    finished ∈ out ∧ _stop s = false ∧ checked s = total s.
Proof.
  eexists _, _. split; [vm_compute; reflexivity|].
  edestruct (counters_invariant (serving 200 (py "hello")) init
               [py "a.com"; py "b.com"] 2 (py "douyin")
               (round_robin (serving 200 (py "hello")) 60 0 0
                  (start init [py "a.com"; py "b.com"] 2 (py "douyin"))))
    as (_ & _ & _ & Hfin); [vm_compute; reflexivity|].
  split; [rewrite !elem_of_cons; auto 20|]. split; [reflexivity|].
  apply Hfin; [rewrite !elem_of_cons; auto 20 | reflexivity].
Defined.

(** C2, as stated, fails: a run that is stopped emits [finished] while
    [checked] is still below [total]. *)
Lemma finished_with_unchecked_tasks :
  ¬ (∀ (requests_get : pystr → Z → HttpOutcome) (self : WorkerManager)
       (urls : list pystr) (num_threads : Z) (mode' : pystr)
       (sched : list Action) (s : WorkerManager) (out : list Signal),
       1 ≤ num_threads →
       run requests_get sched (start self urls num_threads mode') = Some (s, out) →
       finished ∈ out → checked s = total s).
Proof.
  intros H.
  assert (∃ s out,
            run unreachable_net [Stop; Worker 0; Worker 0]
              (start init [py "a.com"] 1 (py "douyin")) = Some (s, out) ∧
            finished ∈ out ∧ checked s ≠ total s) as (s & out & Hrun & Hin & Hne).
  { eexists _, _. split; [vm_compute; reflexivity|].
    split; [rewrite !elem_of_cons; auto | vm_compute; discriminate]. }
  apply Hne. eapply H; [|exact Hrun|exact Hin]. lia.
Qed.

(** ** Completion *)

(** Only the [finally] block emits [finished], and only when its decrement
    brings the counter to zero or below. *)
Lemma worker_step_finished (requests_get : pystr → Z → HttpOutcome)
    (i : nat) (s s' : WorkerManager) (o : list Signal) :
  worker_step requests_get i s = Some (s', o) → finished ∈ o →
  _threads s !! i = Some AtFinally ∧ _active_threads s - 1 ≤ 0 ∧
  _active_threads s' = _active_threads s - 1 ∧
  _threads s' = <[i := Exited]> (_threads s).
Proof.
  unfold worker_step, _thread_entry, _worker_loop. intros Hstep Hin.
  destruct (_threads s !! i) as [f|] eqn:Hi; [|done].
  destruct f; simpl in Hstep; repeat case_match; simplify_eq;
    repeat (apply elem_of_cons in Hin as [?|Hin]; [done|]);
    try by apply elem_of_nil in Hin.
  apply elem_of_cons in Hin as [_|Hin]; [|by apply elem_of_nil in Hin].
  simpl. split_and!; try done. by apply Z.leb_le.
Qed.

(** C3. In a run started with at least one worker, [finished] is never
    emitted twice, and it has been emitted once exactly when all workers have
    exited; the step that emits it is the [finally] block of the last live
    worker, which finds the counter at one while every other worker has
    exited. Whatever the outcomes of the tasks, the workers do exit: from any
    point where they are not held by the pause flag, no schedule of worker
    steps is longer than the effort left, a schedule that cannot be extended
    ends with all workers exited, and there is such a schedule, after which
    [finished] has been emitted exactly once. *)
Theorem finished_exactly_once (requests_get : pystr → Z → HttpOutcome)
    (self : WorkerManager) (urls : list pystr) (num_threads : Z) (mode' : pystr)
    (sched : list Action) (s : WorkerManager) (out : list Signal) :
  1 ≤ num_threads →
  run requests_get sched (start self urls num_threads mode') = Some (s, out) →
  (finished_count out ≤ 1)%nat ∧
  (finished_count out = 1%nat ↔ all_exited s) ∧
  (∀ a s' o,
     act requests_get a s = Some (s', o) → finished ∈ o →
     ∃ i, a = Worker i ∧ _threads s !! i = Some AtFinally ∧
          _active_threads s = 1 ∧ _active_threads s' = 0 ∧
          (∀ j f, j ≠ i → _threads s !! j = Some f → f = Exited) ∧
          all_exited s' ∧ finished_count out = 0%nat) ∧
  (_pause s = false ∨ _stop s = true →
     (∀ ws s' o,
        run requests_get (Worker <$> ws) s = Some (s', o) →
        Z.of_nat (length ws) ≤ effort s ∧
        ((∀ i, worker_step requests_get i s' = None) → all_exited s')) ∧
     (∃ ws s' o,
        run requests_get (Worker <$> ws) s = Some (s', o) ∧
        all_exited s' ∧ finished_count (out ++ o) = 1%nat)).
Proof.
  intros Hn Hrun. pose proof (reachable_inv _ _ _ _ _ _ _ _ Hrun) as Hinv.
  pose proof (inv_finished_iff _ _ _ _ _ _ Hinv) as [Hle Hiff].
  split; [done|]. split; [rewrite Hiff; intuition lia|]. split.
  - intros a s' o Hact Hin.
    pose proof (act_inv _ _ _ _ _ _ _ _ _ Hinv Hact) as Hinv'.
    destruct a as [i| | |]; simpl in Hact;
      try (injection Hact as <- <-; by apply elem_of_nil in Hin).
    destruct (worker_step_finished _ _ _ _ _ Hact Hin) as (Hi & Hz & Ha' & Hth').
    pose proof (exited_room _ _ _ Hi eq_refl) as Hroom.
    pose proof (inv_finished_iff _ _ _ _ _ _ Hinv') as [Hle' Hiff'].
    destruct Hinv as [_ _ Hlen Hact0 _ _ _ _ _ _ _ _ _].
    assert (_active_threads s = 1) as Hone by lia.
    assert (all_exited s') as Hall'.
    { apply all_exited_total. rewrite Hth', length_insert,
        (total_of_insert _ _ _ _ _ Hi). simpl. lia. }
    exists i. split_and!; try done; try lia.
    + intros j f Hj Hf. unfold all_exited in Hall'. rewrite Hth' in Hall'.
      apply (proj1 (Forall_lookup _ _) Hall' j).
      by rewrite list_lookup_insert_ne.
    + rewrite finished_count_app in Hle'.
      apply finished_count_pos in Hin. lia.
  - intros Hflags. split.
    + intros ws s' o Hws. split.
      * pose proof (workers_bounded _ _ _ _ _ Hflags Hws).
        pose proof (effort_nonneg s'). lia.
      * apply stuck_all_exited.
    + destruct (workers_can_finish requests_get s Hflags)
        as (ws & s' & o & Hws & Hall).
      exists ws, s', o. split_and!; try done.
      pose proof (run_inv _ _ _ _ _ _ _ _ _ Hinv Hws) as Hinv'.
      apply (inv_finished_iff _ _ _ _ _ _ Hinv'). split; [lia|done].
Qed.

Lemma finished_exactly_once_witness :
  let s0 := start init [py "a.com"; py "b.com"; py "c.com"] 2 (py "weibo") in
  ∃ s out,
    run unreachable_net (round_robin unreachable_net 80 0 0 s0) s0 = Some (s, out) ∧
    all_exited s ∧ finished_count out = 1%nat ∧
    Forall (λ sg, ∀ url status, sg = resultReady url status → status = py "error") out.
Proof.
  eexists _, _. split; [vm_compute; reflexivity|].
  pose proof (finished_exactly_once unreachable_net init
                [py "a.com"; py "b.com"; py "c.com"] 2 (py "weibo")
                (round_robin unreachable_net 80 0 0
                   (start init [py "a.com"; py "b.com"; py "c.com"] 2 (py "weibo"))))
    as H.
  edestruct H as (_ & Hiff & _); [lia | vm_compute; reflexivity |].
  split; [|split].
  - repeat constructor.
  - apply Hiff. repeat constructor.
  - repeat constructor; intros url status [=]; subst; reflexivity.
Defined.

(** ** The final counts do not depend on the schedule *)

(** C8. Two runs over the same task list and the same provider, each with at
    least one worker and never stopped (pausing and resuming are allowed),
    end with the same [(total, checked, normal, blocked)] whatever their
    worker counts and schedules: the number of tasks twice, then the number
    of tasks the provider forwards and the number it blocks. *)
Theorem final_counts_independent (requests_get : pystr → Z → HttpOutcome)
    (self1 self2 : WorkerManager) (urls : list pystr) (n1 n2 : Z) (mode' : pystr)
    (sched1 sched2 : list Action) (s1 s2 : WorkerManager)
    (out1 out2 : list Signal) :
  1 ≤ n1 → 1 ≤ n2 →
  Stop ∉ sched1 → Stop ∉ sched2 →
  run requests_get sched1 (start self1 urls n1 mode') = Some (s1, out1) →
  run requests_get sched2 (start self2 urls n2 mode') = Some (s2, out2) →
  all_exited s1 → all_exited s2 →
  snapshot s1 = snapshot s2 ∧
  snapshot s1 =
    (Z.of_nat (length urls), Z.of_nat (length urls),
     total_of (ok_weight requests_get mode') urls,
     total_of (blocked_weight requests_get mode') urls).
Proof.
  intros Hn1 Hn2 Hno1 Hno2 Hrun1 Hrun2 Hall1 Hall2.
  pose proof (reachable_inv _ _ _ _ _ _ _ _ Hrun1) as Hinv1.
  pose proof (reachable_inv _ _ _ _ _ _ _ _ Hrun2) as Hinv2.
  apply run_no_stop in Hrun1; [|done]. apply run_no_stop in Hrun2; [|done].
  destruct (inv_completed _ _ _ _ _ _ Hinv1) as [_ ->]; [lia|done|done|].
  destruct (inv_completed _ _ _ _ _ _ Hinv2) as [_ ->]; [lia|done|done|].
  done.
Qed.

Lemma final_counts_independent_witness :
  let urls := [py "good.cn"; py "bad.cn"; py "x.cn"; py "down.cn"; py "good.io";
               py "y.cn"; py "bad.io"; py "good.org"; py "z.cn"; py "w.cn"] in
  let s1 := start init urls 1 (py "douyin") in
  let s5 := start init urls 5 (py "douyin") in
  ∃ t1 o1 t5 o5,
    run sample_net (sequential sample_net 200 s1) s1 = Some (t1, o1) ∧
    run sample_net (Pause :: Resume :: round_robin sample_net 200 0 0 s5) s5
      = Some (t5, o5) ∧
    snapshot t1 = snapshot t5 ∧ snapshot t5 = (10, 10, 3, 2).
Proof.
  eexists _, _, _, _. split; [vm_compute; reflexivity|].
  split; [vm_compute; reflexivity|].
  set (urls := [py "good.cn"; py "bad.cn"; py "x.cn"; py "down.cn"; py "good.io";
                py "y.cn"; py "bad.io"; py "good.org"; py "z.cn"; py "w.cn"]).
  edestruct (final_counts_independent sample_net init init urls 1 5 (py "douyin")
               (sequential sample_net 200 (start init urls 1 (py "douyin")))
               (Pause :: Resume ::
                  round_robin sample_net 200 0 0 (start init urls 5 (py "douyin"))))
    as [Heq _].
  - lia.
  - lia.
  - apply (bool_decide_unpack _). vm_compute. exact I.
  - apply (bool_decide_unpack _). vm_compute. exact I.
  - vm_compute. reflexivity.
  - vm_compute. reflexivity.
  - repeat constructor.
  - repeat constructor.
  - split; [exact Heq | reflexivity].
Defined.

(** ** A run over no tasks *)

Lemma total_of_zero_inv {A : Type} (w : A → Z) (l : list A) :
  (∀ x, 0 ≤ w x) → total_of w l = 0 → Forall (λ x, w x = 0) l.
Proof.
  intros Hw. induction l as [|x l IH]; simpl; [constructor|]. intros Hs.
  assert (0 ≤ total_of w l).
  { clear -Hw. induction l as [|y l IH]; simpl; [lia|].
    specialize (Hw y). lia. }
  specialize (Hw x). constructor; [lia|]. apply IH. lia.
Qed.

Lemma owed_nonneg (f : Frame) : 0 ≤ owed f.
Proof. destruct f; simpl; lia. Qed.

Lemma task_signals_zero (out : list Signal) :
  task_signals out = 0%nat → Forall (λ sg, sg = finished) out.
Proof.
  unfold task_signals. induction out as [|sg out IH]; simpl; [constructor|].
  destruct sg; simpl; try discriminate. intros H. constructor; auto.
Qed.

Lemma only_finished_count (out : list Signal) :
  Forall (λ sg, sg = finished) out → out = replicate (finished_count out) finished.
Proof.
  unfold finished_count. induction 1 as [|sg out -> _ IH]; simpl; [done|].
  by rewrite <- IH.
Qed.

(** C9. In a run started over an empty task list with at least one worker:
    the queue is empty at every point, so a worker that reaches the pop finds
    it empty and goes to its exit without emitting anything; no worker is
    ever classifying or reporting a task; the counters stay at (0, 0, 0, 0);
    no signal other than [finished] is emitted; [finished] is emitted at most
    once, and once exactly when all workers have exited, which they do. *)
Theorem empty_run (requests_get : pystr → Z → HttpOutcome) (self : WorkerManager)
    (num_threads : Z) (mode' : pystr) (sched : list Action)
    (s : WorkerManager) (out : list Signal) :
  1 ≤ num_threads →
  run requests_get sched (start self [] num_threads mode') = Some (s, out) →
  _queue s = [] ∧
  snapshot s = (0, 0, 0, 0) ∧
  Forall (λ f, f ∈ [AtLoopHead; AtPauseWait; AtPop; AtFinally; Exited]) (_threads s) ∧
  (∀ i, _threads s !! i = Some AtPop →
        worker_step requests_get i s = Some (goto i AtFinally s, [])) ∧
  Forall (λ sg, sg = finished) out ∧
  (finished_count out ≤ 1)%nat ∧
  (finished_count out = 1%nat ↔ all_exited s) ∧
  (_pause s = false ∨ _stop s = true →
     ∃ ws s' o,
       run requests_get (Worker <$> ws) s = Some (s', o) ∧
       all_exited s' ∧ snapshot s' = (0, 0, 0, 0) ∧ out ++ o = [finished]).
Proof.
  intros Hn Hrun. pose proof (reachable_inv _ _ _ _ _ _ _ _ Hrun) as Hinv.
  assert (∀ t o, pool_inv requests_get [] num_threads mode' t o →
            _queue t = [] ∧ snapshot t = (0, 0, 0, 0) ∧
            Forall (λ f, owed f = 0) (_threads t) ∧
            Forall (λ sg, sg = finished) o) as Hempty.
  { intros t o [Ht _ _ _ Hc (? & ? & ? & ?) _ _ _ _ _ Howed _].
    pose proof (total_of_bounds in_flight (_threads t) in_flight_bounds).
    assert (0 ≤ total_of owed (_threads t)).
    { clear. induction (_threads t) as [|f l IH]; simpl; [lia|].
      pose proof (owed_nonneg f). lia. }
    simpl in Ht. split_and!.
    - destruct (_queue t); [done|]. simpl in Hc. lia.
    - unfold snapshot. repeat f_equal; lia.
    - apply total_of_zero_inv; [apply owed_nonneg | lia].
    - apply task_signals_zero. lia. }
  destruct (Hempty _ _ Hinv) as (Hq & Hsnap & Hfr & Hout).
  pose proof (inv_finished_iff _ _ _ _ _ _ Hinv) as [Hle Hiff].
  split_and!; try done.
  - eapply Forall_impl; [exact Hfr|]. intros f Hf.
    destruct f; simpl in Hf; try lia; rewrite !elem_of_cons; auto 10.
  - intros i Hi. unfold worker_step. rewrite Hi. simpl. by rewrite Hq.
  - rewrite Hiff. intuition lia.
  - intros Hflags.
    destruct (workers_can_finish requests_get s Hflags)
      as (ws & s' & o & Hws & Hall).
    pose proof (run_inv _ _ _ _ _ _ _ _ _ Hinv Hws) as Hinv'.
    destruct (Hempty _ _ Hinv') as (_ & Hsnap' & _ & Hout').
    pose proof (inv_finished_iff _ _ _ _ _ _ Hinv') as [_ Hiff'].
    exists ws, s', o. split_and!; try done.
    rewrite (only_finished_count _ Hout').
    by rewrite (proj2 Hiff') by (split; [lia|done]).
Qed.

Lemma empty_run_witness :
  let sched := [Worker 2; Worker 2; Worker 0; Worker 2; Worker 1; Worker 0;
                Worker 2; Worker 1; Worker 0; Worker 1; Worker 0; Worker 1] in
  ∃ s out,
    run sample_net sched (start init [] 3 (py "douyin")) = Some (s, out) ∧
    all_exited s ∧ snapshot s = (0, 0, 0, 0) ∧ out = [finished].
Proof.
  eexists _, _. split; [vm_compute; reflexivity|].
  edestruct (empty_run sample_net init 3 (py "douyin")
               [Worker 2; Worker 2; Worker 0; Worker 2; Worker 1; Worker 0;
                Worker 2; Worker 1; Worker 0; Worker 1; Worker 0; Worker 1])
    as (_ & Hsnap & _ & _ & _ & _ & Hiff & _); [lia | vm_compute; reflexivity |].
  split; [|split]; [repeat constructor | exact Hsnap | reflexivity].
Defined.

(** ** An unrecognized provider *)

Lemma attempt_unknown_mode (requests_get : pystr → Z → HttpOutcome)
    (mode' url : pystr) :
  mode' ≠ py "douyin" → mode' ≠ py "weibo" →
  attempt requests_get mode' url = Raised (py "未知检测模式: " ++ mode').
Proof.
  intros Hd Hw. unfold attempt, pystr_eqb.
  by rewrite !bool_decide_eq_false_2.
Qed.

Lemma unknown_mode_weights (requests_get : pystr → Z → HttpOutcome)
    (mode' url : pystr) :
  mode' ≠ py "douyin" → mode' ≠ py "weibo" →
  outcome requests_get mode' url = py "error" ∧
  ok_weight requests_get mode' url = 0 ∧
  blocked_weight requests_get mode' url = 0.
Proof.
  intros Hd Hw. unfold ok_weight, blocked_weight, outcome.
  by rewrite attempt_unknown_mode.
Qed.

(** C4, as the code has it. With a provider that is neither [douyin] nor
    [weibo], [start] validates nothing and creates the workers as usual; the
    loop body then raises before calling any classifier, so every task a
    worker pops is reported with status [error] and counted in [checked],
    never in [normal] or [blocked]; a run that is not stopped ends with every
    task counted. *)
Theorem unknown_provider_reported_per_task
    (requests_get : pystr → Z → HttpOutcome) (self : WorkerManager)
    (urls : list pystr) (num_threads : Z) (mode' : pystr)
    (sched : list Action) (s : WorkerManager) (out : list Signal) :
  mode' ≠ py "douyin" → mode' ≠ py "weibo" → 1 ≤ num_threads →
  run requests_get sched (start self urls num_threads mode') = Some (s, out) →
  Z.of_nat (length (_threads (start self urls num_threads mode'))) = num_threads ∧
  (∀ url, attempt requests_get mode' url = Raised (py "未知检测模式: " ++ mode')) ∧
  normal s = 0 ∧ blocked s = 0 ∧
  (∀ url status, resultReady url status ∈ out → status = py "error") ∧
  (all_exited s → _stop s = false →
   snapshot s = (Z.of_nat (length urls), Z.of_nat (length urls), 0, 0)).
Proof.
  intros Hd Hw Hn Hrun. pose proof (reachable_inv _ _ _ _ _ _ _ _ Hrun) as Hinv.
  pose proof (unknown_mode_weights requests_get mode') as Hweights.
  assert (total_of (ok_weight requests_get mode') urls = 0) as Hok.
  { apply total_of_zero, Forall_forall. intros url _. by apply Hweights. }
  assert (total_of (blocked_weight requests_get mode') urls = 0) as Hbl.
  { apply total_of_zero, Forall_forall. intros url _. by apply Hweights. }
  split_and!.
  - simpl. unfold spawn. rewrite length_replicate. lia.
  - intros url. by apply attempt_unknown_mode.
  - destruct Hinv as [_ _ _ _ _ (? & ? & ? & ?) Hnorm _ _ _ _ _ _].
    assert (0 ≤ total_of (held_weight (ok_weight requests_get mode')) (_threads s)).
    { clear -Hweights Hd Hw. induction (_threads s) as [|f l IH]; simpl; [lia|].
      destruct f; simpl; try lia;
        rewrite (proj1 (proj2 (Hweights url Hd Hw))); lia. }
    assert (0 ≤ total_of (ok_weight requests_get mode') (_queue s)).
    { clear -Hweights Hd Hw. induction (_queue s) as [|u l IH]; simpl; [lia|].
      rewrite (proj1 (proj2 (Hweights u Hd Hw))). lia. }
    lia.
  - destruct Hinv as [_ _ _ _ _ (? & ? & ? & ?) _ Hblk _ _ _ _ _].
    assert (0 ≤ total_of (held_weight (blocked_weight requests_get mode'))
                  (_threads s)).
    { clear -Hweights Hd Hw. induction (_threads s) as [|f l IH]; simpl; [lia|].
      destruct f; simpl; try lia;
        rewrite (proj2 (proj2 (Hweights url Hd Hw))); lia. }
    assert (0 ≤ total_of (blocked_weight requests_get mode') (_queue s)).
    { clear -Hweights Hd Hw. induction (_queue s) as [|u l IH]; simpl; [lia|].
      rewrite (proj2 (proj2 (Hweights u Hd Hw))). lia. }
    lia.
  - intros url status Hin.
    destruct Hinv as [_ _ _ _ _ _ _ _ _ Hsig _ _ _].
    pose proof (proj1 (Forall_forall _ _) Hsig _ Hin) as Hst. simpl in Hst.
    rewrite Hst. by apply Hweights.
  - intros Hall Hstop.
    destruct (inv_completed _ _ _ _ _ _ Hinv) as [_ ->]; [lia|done|done|].
    by rewrite Hok, Hbl.
Qed.

Lemma unknown_provider_reported_per_task_witness :
  let s0 := start init [py "good.cn"; py "bad.cn"] 2 (py "kuaishou") in
  ∃ s out,
    run sample_net (round_robin sample_net 60 0 0 s0) s0 = Some (s, out) ∧
    snapshot s = (2, 2, 0, 0) ∧
    resultReady (py "good.cn") (py "error") ∈ out.
Proof.
  eexists _, _. split; [vm_compute; reflexivity|].
  edestruct (unknown_provider_reported_per_task sample_net init
               [py "good.cn"; py "bad.cn"] 2 (py "kuaishou")
               (round_robin sample_net 60 0 0
                  (start init [py "good.cn"; py "bad.cn"] 2 (py "kuaishou"))))
    as (_ & _ & _ & _ & _ & Hsnap);
    [vm_compute; discriminate | vm_compute; discriminate | lia
    | vm_compute; reflexivity |].
  split; [apply Hsnap; [repeat constructor | reflexivity]|].
  apply (bool_decide_unpack _). vm_compute. exact I.
Defined.

(** C4, as stated, fails: [start] with an unknown provider creates its
    worker, which pops the task, counts it and reports it. *)
Lemma unknown_provider_not_rejected :
  ¬ fails_fast unreachable_net init [py "a.com"] 1 (py "kuaishou").
Proof.
  intros [Hthreads _]. vm_compute in Hthreads. discriminate.
Qed.

Example unknown_provider_processes_task :
  ∃ s out,
    run unreachable_net (sequential unreachable_net 20
                           (start init [py "a.com"] 1 (py "kuaishou")))
      (start init [py "a.com"] 1 (py "kuaishou")) = Some (s, out) ∧
    checked s = 1 ∧
    out = [logMessage (py "检测出错：a.com -> 未知检测模式: kuaishou");
           resultReady (py "a.com") (py "error");
           statsUpdate 1 1 0 0;
           logMessage (py "a.com -> 错误");
           finished].
Proof. eexists _, _. split; [vm_compute; reflexivity|]. by vm_compute. Qed.

(** ** Stopping *)

(** Once [_stop] is set, [checked] grows only by the tasks of workers that
    had already passed the test of the flag: each such worker adds at most
    one. *)
Lemma stopped_overrun_bound (requests_get : pystr → Z → HttpOutcome)
    (sched : list Action) (s s' : WorkerManager) (o : list Signal) :
  _stop s = true → run requests_get sched s = Some (s', o) →
  _stop s' = true ∧
  checked s' + total_of committed (_threads s')
    ≤ checked s + total_of committed (_threads s).
Proof.
  revert s o. induction sched as [|a sched IH]; intros s o Hstop; simpl.
  - intros [= <- <-]. split; [done|lia].
  - destruct (act requests_get a s) as [[s1 o1]|] eqn:Hact; [|done].
    destruct (run requests_get sched s1) as [[s2 o2]|] eqn:Hrun; [|done].
    intros [= <- <-].
    assert (_stop s1 = true ∧
            checked s1 + total_of committed (_threads s1)
              ≤ checked s + total_of committed (_threads s)) as [Hstop1 Hle].
    { destruct a as [i| | |]; simpl in Hact;
        try (injection Hact as <- <-; simpl; split; [done|lia]).
      unfold worker_step, _thread_entry, _worker_loop in Hact.
      destruct (_threads s !! i) as [f|] eqn:Hi; [|done].
      rewrite Hstop in Hact.
      destruct f; simpl in Hact; repeat case_match; simplify_eq; simpl;
        rewrite ?(total_of_insert _ _ _ _ _ Hi); simpl; split; try done; lia. }
    destruct (IH _ _ Hstop1 Hrun) as [Hstop2 Hle2]. split; [done|lia].
Qed.

(** C5 at its failing input. The bound above is reached: a worker that waits
    in the pause loop when [stop] is called leaves the loop and goes on to
    pop a task. Here one worker has
    passed the stop test and sleeps while paused; nothing is in flight, two
    tasks are queued. After [stop()] the worker pops the first of them,
    classifies it and reports it before it exits. *)
Theorem stop_while_paused_still_pops :
  let a := py "good.cn" in
  let b := py "bad.cn" in
  ∃ s1 s2 out2,
    run sample_net [Worker 0; Pause; Worker 0; Worker 0]
      (start init [a; b] 1 (py "douyin")) = Some (s1, []) ∧
    _threads s1 = [AtPauseWait] ∧ _queue s1 = [a; b] ∧ checked s1 = 0 ∧
    run sample_net (Worker <$> [0; 0; 0; 0; 0; 0; 0; 0; 0]%nat) (stop s1)
      = Some (s2, out2) ∧
    all_exited s2 ∧ _queue s2 = [b] ∧ checked s2 = 1 ∧
    out2 = [resultReady a (py "ok"); statsUpdate 2 1 1 0;
            logMessage (py "good.cn -> 正常"); finished].
Proof.
  eexists _, _, _. split; [vm_compute; reflexivity|].
  split; [reflexivity|]. split; [reflexivity|]. split; [reflexivity|].
  split; [vm_compute; reflexivity|].
  split; [repeat constructor|]. by vm_compute.
Qed.

Example stop_does_not_prevent_pop :
  ¬ no_pop_after_stop sample_net
      (pause (goto 0 AtPauseWait
                (start init [py "good.cn"; py "bad.cn"] 1 (py "douyin")))).
Proof.
  intros H. specialize (H [0; 0]%nat). vm_compute in H.
  specialize (H _ _ eq_refl). discriminate.
Qed.

(** ** Domain extraction *)

Section ExtractionFacts.

Variable unicode_alnum : N → bool.

Local Abbreviation Ends := (ends unicode_alnum).

Lemma ends_Class (fuel : nat) (p : N → bool) (prev : option N) (rest : pystr) :
  Ends fuel (Class p) prev rest =
  match rest with
  | c :: rest' => if p c then [(Some c, rest')] else []
  | [] => []
  end.
Proof. by destruct fuel. Qed.

Lemma ends_WordBoundary (fuel : nat) (prev : option N) (rest : pystr) :
  Ends fuel WordBoundary prev rest =
  if at_boundary unicode_alnum prev rest then [(prev, rest)] else [].
Proof. by destruct fuel. Qed.

Lemma ends_Seq (fuel : nat) (r1 r2 : Regex) (prev : option N) (rest : pystr) :
  Ends fuel (Seq r1 r2) prev rest =
  flat_map (λ e, Ends fuel r2 e.1 e.2) (Ends fuel r1 prev rest).
Proof. by destruct fuel. Qed.

Lemma ends_Star_O (r : Regex) (prev : option N) (rest : pystr) :
  Ends 0 (Star r) prev rest = [(prev, rest)].
Proof. done. Qed.

Lemma ends_Star_S (fuel : nat) (r : Regex) (prev : option N) (rest : pystr) :
  Ends (S fuel) (Star r) prev rest =
  flat_map (λ e, if (length e.2 <? length rest)%nat
                 then Ends fuel (Star r) e.1 e.2 else [])
           (Ends (S fuel) r prev rest)
  ++ [(prev, rest)].
Proof. done. Qed.

Local Abbreviation Consumes := (consumes unicode_alnum).

Lemma consumes_Class (P : N → bool) (fuel : nat) (p : N → bool) :
  (∀ c, p c = true → P c = true) → Consumes P fuel (Class p).
Proof.
  intros Hcl prev rest e. rewrite ends_Class.
  destruct rest as [|c rest]; [done|].
  destruct (p c) eqn:Hp; [|done].
  intros [<-|[]]. exists [c]. split; [done|].
  constructor; [by apply Hcl | constructor].
Qed.

Lemma consumes_WordBoundary (P : N → bool) (fuel : nat) :
  Consumes P fuel WordBoundary.
Proof.
  intros prev rest e. rewrite ends_WordBoundary.
  destruct (at_boundary _ _ _); [|done].
  intros [<-|[]]. by exists [].
Qed.

Lemma consumes_Seq (P : N → bool) (fuel : nat) (r1 r2 : Regex) :
  Consumes P fuel r1 → Consumes P fuel r2 → Consumes P fuel (Seq r1 r2).
Proof.
  intros H1 H2 prev rest e. rewrite ends_Seq.
  intros (e1 & He1 & He)%in_flat_map.
  apply H1 in He1 as (w1 & -> & Hw1).
  apply H2 in He as (w2 & Hw & Hw2).
  exists (w1 ++ w2). split; [|by apply Forall_app].
  rewrite <- app_assoc. f_equal. exact Hw.
Qed.

Lemma ends_consumes (P : N → bool) (fuel : nat) (r : Regex) :
  classes_within P r → Consumes P fuel r.
Proof.
  revert r. induction fuel as [|fuel IHf];
    induction r as [p| |r1 IH1 r2 IH2|r IH]; simpl; intros Hcl.
  - by apply consumes_Class.
  - apply consumes_WordBoundary.
  - apply consumes_Seq; tauto.
  - intros prev rest e. rewrite ends_Star_O. intros [<-|[]]. by exists [].
  - by apply consumes_Class.
  - apply consumes_WordBoundary.
  - apply consumes_Seq; tauto.
  - intros prev rest e. rewrite ends_Star_S.
    intros [Hin | [<-|[]]]%in_app_iff; [|by exists []].
    apply in_flat_map in Hin as (e1 & He1 & He).
    apply (IH Hcl) in He1 as (w1 & -> & Hw1).
    destruct (_ <? _)%nat; [|done].
    apply (IHf (Star r) Hcl) in He as (w2 & Hw & Hw2).
    exists (w1 ++ w2). split; [|by apply Forall_app].
    rewrite <- app_assoc. f_equal. exact Hw.
Qed.

Lemma classes_within_true (r : Regex) : classes_within (λ _, true) r.
Proof. induction r; simpl; auto. Qed.

Lemma ends_length (fuel : nat) (r : Regex) (prev : option N) (rest : pystr)
    (e : option N * pystr) :
  In e (Ends fuel r prev rest) → (length e.2 ≤ length rest)%nat.
Proof.
  intros (w & -> & _)%(ends_consumes (λ _, true) fuel r (classes_within_true r)).
  rewrite length_app. lia.
Qed.

Lemma flat_map_ext_In {A B : Type} (f g : A → list B) (l : list A) :
  (∀ x, In x l → f x = g x) → flat_map f l = flat_map g l.
Proof.
  induction l as [|x l IH]; simpl; intros H; [done|].
  rewrite H by auto. rewrite IH by auto. done.
Qed.

Lemma flat_map_never {A B : Type} (g : A → bool) (F : A → list B) (l : list A) :
  (∀ x, g x = false) → flat_map (λ e, if g e then F e else []) l = [].
Proof.
  intros Hg. induction l as [|x l IH]; simpl; [done|]. by rewrite Hg, IH.
Qed.

(** The fuel that [match_at] passes is never used up: any two amounts that
    cover the input give the same ends. *)
Lemma ends_fuel_step (n : nat) :
  (∀ r rest f1 f2 prev,
     (length rest < n)%nat → (length rest ≤ f1)%nat → (length rest ≤ f2)%nat →
     Ends f1 r prev rest = Ends f2 r prev rest) →
  ∀ r rest f1 f2 prev,
    (length rest ≤ n)%nat → (length rest ≤ f1)%nat → (length rest ≤ f2)%nat →
    Ends f1 r prev rest = Ends f2 r prev rest.
Proof.
  intros Hsmall.
  induction r as [p| |r1 IH1 r2 IH2|r IH]; intros rest f1 f2 prev Hn H1 H2.
  - by rewrite !ends_Class.
  - by rewrite !ends_WordBoundary.
  - rewrite !ends_Seq. rewrite (IH1 rest f1 f2 prev) by done.
    apply flat_map_ext_In. intros e He. apply ends_length in He.
    apply IH2; lia.
  - assert (∀ f, (length rest ≤ f)%nat →
              Ends f (Star r) prev rest =
              flat_map (λ e, if (length e.2 <? length rest)%nat
                             then Ends (length rest - 1) (Star r) e.1 e.2 else [])
                       (Ends (length rest) r prev rest)
              ++ [(prev, rest)]) as Hnorm.
    { intros f Hf. destruct f as [|f].
      - destruct rest; [|simpl in Hf; lia]. rewrite ends_Star_O.
        rewrite flat_map_never; [done|]. intros e. apply Nat.ltb_ge. simpl. lia.
      - rewrite ends_Star_S. f_equal.
        rewrite (IH rest (S f) (length rest) prev) by lia.
        apply flat_map_ext_In. intros e He.
        destruct (Nat.ltb_spec (length e.2) (length rest)) as [Hlt|_]; [|done].
        apply Hsmall; lia. }
    by rewrite (Hnorm f1), (Hnorm f2).
Qed.

Lemma ends_fuel_enough (r : Regex) (rest : pystr) (f1 f2 : nat) (prev : option N) :
  (length rest ≤ f1)%nat → (length rest ≤ f2)%nat →
  Ends f1 r prev rest = Ends f2 r prev rest.
Proof.
  assert (∀ n r rest f1 f2 prev,
            (length rest ≤ n)%nat → (length rest ≤ f1)%nat →
            (length rest ≤ f2)%nat →
            Ends f1 r prev rest = Ends f2 r prev rest) as Hall.
  { induction n as [n IHn] using lt_wf_ind. apply ends_fuel_step.
    intros r' rest' g1 g2 prev' Hlt. by apply (IHn (length rest')). }
  by apply (Hall (length rest)).
Qed.

(** Every string [findall] returns is made of characters of the pattern's
    classes. *)
Lemma findall_from_chars (P : N → bool) (r : Regex) :
  classes_within P r →
  ∀ rest prev skip,
    Forall (Forall (λ c, P c = true)) (findall_from unicode_alnum r prev rest skip).
Proof.
  intros Hcl. induction rest as [|c rest IH]; intros prev skip; simpl;
    [constructor|].
  destruct skip as [|k]; [|apply IH].
  unfold match_at.
  destruct (Ends (length (c :: rest)) r prev (c :: rest)) as [|e l] eqn:He;
    [apply IH|].
  constructor; [|apply IH].
  destruct (ends_consumes P (length (c :: rest)) r Hcl prev (c :: rest) e)
    as (w & Hw & HP).
  { rewrite He. by left. }
  rewrite Hw, length_app, Nat.add_sub. by rewrite take_app_length.
Qed.

End ExtractionFacts.

Lemma first_occurrences_elem_of (l : list pystr) (x : pystr) :
  x ∈ first_occurrences l ↔ x ∈ l.
Proof.
  induction l as [|y l IH]; simpl; [done|].
  rewrite !elem_of_cons, list_elem_of_filter, IH.
  destruct (decide (x = y)); tauto.
Qed.

Lemma first_occurrences_NoDup (l : list pystr) : NoDup (first_occurrences l).
Proof.
  induction l as [|y l IH]; simpl; constructor.
  - rewrite list_elem_of_filter. tauto.
  - by apply NoDup_filter.
Qed.

(** The loop appends, in order, the first occurrences of the lowered matches
    that it has not seen yet. *)
Lemma extract_loop_spec (matches : list pystr) (seen : gset pystr)
    (domains : list pystr) :
  extract_loop matches seen domains =
  domains ++ filter (λ d, d ∉ seen) (first_occurrences (lower <$> matches)).
Proof.
  revert seen domains. induction matches as [|m matches IH]; intros seen domains.
  - simpl. by rewrite app_nil_r.
  - cbn [extract_loop]. rewrite fmap_cons. cbn [first_occurrences].
    rewrite filter_cons. case_bool_decide as Hseen.
    + rewrite decide_False by tauto. rewrite IH. f_equal.
      rewrite list_filter_filter. apply list_filter_iff. intros d.
      split; [|tauto]. intros Hd. split; [done|]. by intros ->.
    + rewrite decide_True by done. rewrite IH, <- app_assoc. simpl. do 2 f_equal.
      rewrite list_filter_filter. apply list_filter_iff. intros d.
      rewrite not_elem_of_union, not_elem_of_singleton. tauto.
Qed.

Lemma filter_all {A : Type} (P : A → Prop) `{∀ x, Decision (P x)} (l : list A) :
  (∀ x, P x) → filter P l = l.
Proof.
  intros HP. induction l as [|x l IH]; [done|].
  rewrite filter_cons_True by done. by rewrite IH.
Qed.

Lemma lower_domain_char (c : N) :
  (alnum_dash c || dot c) = true →
  domain_char (ascii_lower c) = true ∧ is_upper (ascii_lower c) = false.
Proof.
  unfold alnum_dash, alnum, alpha, dot, is_upper, is_lower, is_digit.
  rewrite !orb_true_iff, !andb_true_iff, !N.leb_le, !N.eqb_eq. intros Hc.
  unfold ascii_lower.
  destruct ((65 <=? c) && (c <=? 90))%N eqn:Hup.
  - apply andb_true_iff in Hup as [Ha%N.leb_le Hb%N.leb_le].
    unfold domain_char, is_upper, is_lower, is_digit. split.
    + rewrite !orb_true_iff, !andb_true_iff, !N.leb_le. lia.
    + apply andb_false_iff. rewrite !N.leb_gt. lia.
  - apply andb_false_iff in Hup. rewrite !N.leb_gt in Hup.
    unfold domain_char, is_upper, is_lower, is_digit. split.
    + rewrite !orb_true_iff, !andb_true_iff, !N.leb_le, !N.eqb_eq. lia.
    + apply andb_false_iff. rewrite !N.leb_gt. lia.
Qed.

Lemma DOMAIN_REGEX_classes :
  classes_within (λ c, alnum_dash c || dot c) DOMAIN_REGEX.
Proof.
  simpl. split_and!; try done; intros c Hc; unfold alnum_dash, alnum in *;
    rewrite ?orb_true_iff in *; tauto.
Qed.

(** C10. For every text, [extract_domains_from_text] returns the matches of
    [DOMAIN_REGEX], lower-cased, with duplicates removed so that each domain
    stays at its first occurrence: the result has no duplicates, holds
    exactly the lower-cased matches, and contains only the characters
    [a-z], [0-9], [-] and [.], so no upper-case letter. *)
Theorem extract_domains_spec (unicode_alnum : N → bool) (text : pystr) :
  let matches := findall unicode_alnum DOMAIN_REGEX text in
  let domains := extract_domains_from_text unicode_alnum text in
  domains = first_occurrences (lower <$> matches) ∧
  NoDup domains ∧
  (∀ d, d ∈ domains ↔ ∃ m, m ∈ matches ∧ d = lower m) ∧
  Forall (Forall (λ c, domain_char c = true ∧ is_upper c = false)) domains.
Proof.
  cbv zeta. unfold extract_domains_from_text.
  rewrite extract_loop_spec, app_nil_l, filter_all by set_solver.
  split_and!.
  - done.
  - apply first_occurrences_NoDup.
  - intros d. rewrite first_occurrences_elem_of, list_elem_of_fmap.
    split; intros (m & ? & ?); exists m; done.
  - apply Forall_forall. intros d Hd.
    apply first_occurrences_elem_of, list_elem_of_fmap in Hd as (m & -> & Hm).
    pose proof (findall_from_chars unicode_alnum _ _ DOMAIN_REGEX_classes
                  text None 0%nat) as Hchars.
    pose proof (proj1 (Forall_forall _ _) Hchars m Hm) as Hmchars.
    unfold lower. apply Forall_fmap.
    eapply Forall_impl; [exact Hmchars|]. intros c Hc.
    by apply lower_domain_char.
Qed.

(** The decision table of the design document, and the extraction, on
    concrete inputs. *)
Example table_302 :
  (check_douyin_jump (redirecting (py "https://x.com/y")) (py "x.com") 10).1
  = ok_result (py "https://x.com/y") 302.
Proof. vm_compute. reflexivity. Qed.

Example table_blocked :
  (check_douyin_jump (serving 200 (py "<p>已终止访问该网页</p>")) (py "x.com") 10).1
  = blocked_result [py "已终止访问该网页"] 200.
Proof. vm_compute. reflexivity. Qed.

Example table_unknown :
  (check_douyin_jump (serving 200 (py "hello")) (py "x.com") 10).1
  = unknown_result 200.
Proof. vm_compute. reflexivity. Qed.

Example table_error :
  (check_weibo_jump unreachable_net (py "x.com") 10).1 = error_result (py "timeout").
Proof. vm_compute. reflexivity. Qed.

Example quote_plus_ex :
  quote_plus (py "https://a.b/c d?é") = py "https%3A%2F%2Fa.b%2Fc+d%3F%C3%A9".
Proof. vm_compute. reflexivity. Qed.

Example extract_ex1 :
  extract_domains_from_text ascii_only
    (py "see Foo.Example.com, a-b.co.uk2 and foo.example.COM x_y.z.io a.b.c1 ")
  = [py "foo.example.com"; py "a-b.co"; py "z.io"].
Proof. vm_compute. reflexivity. Qed.

Example extract_ex2 :
  extract_domains_from_text with_cjk (py "网址example.com ，Example.com。")
  = [py "example.com"].
Proof. vm_compute. reflexivity. Qed.

(** * Further properties of the code *)

(** ** The classifiers' results and the command line *)

Lemma decide_response_well_formed (kws : list pystr) (resp : Response) :
  well_formed_result (decide_response kws resp) ∧
  http_status (decide_response kws resp) = Some (status_code resp).
Proof.
  unfold decide_response, well_formed_result.
  repeat case_match; simpl; (split; [|done]);
    first [ by (left; simpl; eauto 10)
          | by (right; left; simpl; split_and!; eauto)
          | by (right; right; left; simpl; eauto 10) ].
Qed.

(** X1. Whatever the network does, the dictionary either classifier returns
    has one of four shapes, tied to its status: [ok] carries [redirect_to]
    and [http_status] only; [blocked] carries a non-empty [keywords] and
    [http_status] only; [unknown] carries [http_status] only; [error]
    carries [error] only. When a response arrived, [http_status] is its
    status code. *)
Theorem classifier_result_shape (requests_get : pystr → Z → HttpOutcome)
    (target : pystr) (timeout : Z) :
  let rd := (check_douyin_jump requests_get target timeout).1 in
  let rw := (check_weibo_jump requests_get target timeout).1 in
  well_formed_result rd ∧ well_formed_result rw ∧
  (∀ resp,
     requests_get (DOUYIN_CHECK_URL_TEMPLATE (quote_plus target)) timeout
       = Responded resp → http_status rd = Some (status_code resp)) ∧
  (∀ resp,
     requests_get (WEIBO_CHECK_URL_TEMPLATE (quote_plus target)) timeout
       = Responded resp → http_status rw = Some (status_code resp)).
Proof.
  cbv zeta. rewrite check_douyin_jump_eq, check_weibo_jump_eq. simpl.
  assert (∀ exc, well_formed_result (error_result exc)) as Herr.
  { intros exc. right. right. right. simpl. eauto 10. }
  split_and!.
  - destruct (requests_get _ _); [apply Herr|apply decide_response_well_formed].
  - destruct (requests_get _ _); [apply Herr|apply decide_response_well_formed].
  - intros resp ->. apply decide_response_well_formed.
  - intros resp ->. apply decide_response_well_formed.
Qed.

(** The three ways a response is classified exclude one another. *)
Lemma decide_response_cases (kws : list pystr) (resp : Response) :
  let redirect :=
    300 ≤ status_code resp < 400 ∧
    is_Some (headers_get (py "Location") (headers resp)) in
  let hit := ∃ kw, kw ∈ kws ∧ occurs_in kw (response_body resp) in
  (redirect ∧ status (decide_response kws resp) = py "ok") ∨
  (¬ redirect ∧ hit ∧ status (decide_response kws resp) = py "blocked") ∨
  (¬ redirect ∧ ¬ hit ∧ status (decide_response kws resp) = py "unknown").
Proof.
  cbv zeta. rewrite <- or_empty_body.
  pose proof (decide_response_table kws resp) as (Hok & Hb & Hu). cbv zeta in *.
  destruct (if ((300 <=? status_code resp) && (status_code resp <? 400))
            then headers_get (py "Location") (headers resp) else None)
    as [loc|] eqn:G; apply redirect_guard in G.
  - destruct G as [Hr Hl]. left. split; [by rewrite Hl|].
    by rewrite (Hok loc Hr Hl).
  - right.
    destruct (List.filter (λ kw, str_in kw (or_empty (text resp))) kws)
      as [|kw l] eqn:E.
    + right. assert (¬ ∃ kw, kw ∈ kws ∧ occurs_in kw (or_empty (text resp))) as Hn.
      { intros Hhit%hits_nonempty. by rewrite E in Hhit. }
      split_and!; [done|done|]. by rewrite (Hu G Hn).
    + left. assert (∃ kw, kw ∈ kws ∧ occurs_in kw (or_empty (text resp))) as Hh.
      { apply hits_nonempty. by rewrite E. }
      split_and!; [done|done|]. by rewrite (Hb G Hh).
Qed.

Lemma verdict_lines_distinct :
  NoDup [py "检测结果：正常"; py "检测结果：拦截"; py "检测结果：未知";
         py "检测结果：错误"].
Proof. apply (bool_decide_unpack _). vm_compute. exact I. Qed.

(** Four-way case split behind [main_prints_verdict]: the line printed is
    one of four pairwise different lines, and the conditions that select them
    exclude one another. *)
Lemma four_way {L : Type} (a b c d line : L) (Pa Pb Pc Pd : Prop) :
  NoDup [a; b; c; d] →
  (Pa ∧ ¬ Pb ∧ ¬ Pc ∧ ¬ Pd ∧ line = a) ∨ (¬ Pa ∧ Pb ∧ ¬ Pc ∧ ¬ Pd ∧ line = b) ∨
  (¬ Pa ∧ ¬ Pb ∧ Pc ∧ ¬ Pd ∧ line = c) ∨ (¬ Pa ∧ ¬ Pb ∧ ¬ Pc ∧ Pd ∧ line = d) →
  (line = a ↔ Pa) ∧ (line = b ↔ Pb) ∧ (line = c ↔ Pc) ∧ (line = d ↔ Pd).
Proof.
  intros Hnd Hcases.
  assert (a ≠ b ∧ a ≠ c ∧ a ≠ d ∧ b ≠ c ∧ b ≠ d ∧ c ≠ d)
    as (Hab & Hac & Had & Hbc & Hbd & Hcd).
  { rewrite !NoDup_cons, !not_elem_of_cons in Hnd. tauto. }
  destruct Hcases as [H|[H|[H|H]]]; destruct H as (Ha & Hb & Hc & Hd & ->);
    repeat split; intros;
    first [ assumption | reflexivity | exfalso; tauto | exfalso; congruence ].
Qed.

(** X2. The command line prints one verdict line or none. When [quote_plus]
    raises on the target (a surrogate code point) or [requests.get] raises
    something that is not a [RequestException] (as for [--timeout 0]), the
    exception leaves [main] and nothing is printed. Otherwise exactly one
    line is printed, from the douyin classifier with the timeout given:
    "正常" exactly when a 3xx response carried a [Location] header, "拦截"
    exactly when a response that is not such a redirect has a douyin block
    keyword in its body, "未知" exactly for the remaining responses, and
    "错误" exactly when the request raised a [RequestException]. *)
Theorem main_prints_verdict (requests_get : pystr → Z → HttpOutcome)
    (requests_get_other : pystr → Z → option pystr) (url : pystr) (timeout : Z) :
  let check_url := DOUYIN_CHECK_URL_TEMPLATE (quote_plus url) in
  let outcome := requests_get check_url timeout in
  let redirect resp :=
    300 ≤ status_code resp < 400 ∧
    is_Some (headers_get (py "Location") (headers resp)) in
  let hit resp :=
    ∃ kw, kw ∈ DOUYIN_BLOCK_KEYWORDS ∧ occurs_in kw (response_body resp) in
  let ending := main requests_get requests_get_other url timeout in
  (existsb is_surrogate url = true → ending = Escapes UnicodeEncodeError) ∧
  (existsb is_surrogate url = false →
   ∀ exc, requests_get_other check_url timeout = Some exc →
     ending = Escapes (OtherException exc)) ∧
  (existsb is_surrogate url = false →
   requests_get_other check_url timeout = None →
   ∃ line,
     ending = Returns [line] ∧
     (line = py "检测结果：正常" ↔
        ∃ resp, outcome = Responded resp ∧ redirect resp) ∧
     (line = py "检测结果：拦截" ↔
        ∃ resp, outcome = Responded resp ∧ ¬ redirect resp ∧ hit resp) ∧
     (line = py "检测结果：未知" ↔
        ∃ resp, outcome = Responded resp ∧ ¬ redirect resp ∧ ¬ hit resp) ∧
     (line = py "检测结果：错误" ↔ ∃ exc, outcome = RequestException exc)).
Proof.
  cbv zeta. unfold main, check_douyin_jump_call, quote_plus_call.
  split_and!.
  - by intros ->.
  - by intros -> exc ->.
  - intros -> ->. rewrite check_douyin_jump_eq.
    destruct (requests_get _ _) as [exc|resp].
    + exists (py "检测结果：错误"). split; [by vm_compute|].
      apply (four_way _ _ _ _ _ _ _ _ _ verdict_lines_distinct).
      right. right. right. split_and!.
      * intros (resp & [=] & _).
      * intros (resp & [=] & _).
      * intros (resp & [=] & _).
      * by exists exc.
      * reflexivity.
    + pose proof (decide_response_cases DOUYIN_BLOCK_KEYWORDS resp) as Hc.
      cbv zeta in Hc.
      destruct Hc as [[Hr ->] | [(Hr & Hh & ->) | (Hr & Hh & ->)]].
      * exists (py "检测结果：正常"). split; [by vm_compute|].
        apply (four_way _ _ _ _ _ _ _ _ _ verdict_lines_distinct).
        left. split_and!.
        -- by exists resp.
        -- intros (resp' & [= <-] & Hn & _). tauto.
        -- intros (resp' & [= <-] & Hn & _). tauto.
        -- intros (exc & [=]).
        -- reflexivity.
      * exists (py "检测结果：拦截"). split; [by vm_compute|].
        apply (four_way _ _ _ _ _ _ _ _ _ verdict_lines_distinct).
        right. left. split_and!.
        -- intros (resp' & [= <-] & Hn). tauto.
        -- by exists resp.
        -- intros (resp' & [= <-] & _ & Hn). tauto.
        -- intros (exc & [=]).
        -- reflexivity.
      * exists (py "检测结果：未知"). split; [by vm_compute|].
        apply (four_way _ _ _ _ _ _ _ _ _ verdict_lines_distinct).
        right. right. left. split_and!.
        -- intros (resp' & [= <-] & Hn). tauto.
        -- intros (resp' & [= <-] & _ & Hn). tauto.
        -- by exists resp.
        -- intros (exc & [=]).
        -- reflexivity.
Qed.

Lemma main_prints_verdict_witness :
  main sample_net timeout_checked (py "bad.cn") 10
    = Returns [py "检测结果：拦截"] ∧
  main sample_net timeout_checked (py "bad.cn") 0
    = Escapes (OtherException (py "ValueError")) ∧
  main sample_net timeout_checked [98; 56448; 100]%N 10
    = Escapes UnicodeEncodeError.
Proof.
  split_and!.
  - destruct (main_prints_verdict sample_net timeout_checked (py "bad.cn") 10)
      as (_ & _ & Hprints).
    destruct Hprints as (line & -> & _ & Hblocked & _);
      [vm_compute; reflexivity | vm_compute; reflexivity |].
    do 2 f_equal. apply Hblocked. eexists. split_and!.
    + vm_compute. reflexivity.
    + intros [_ [loc Hloc]]. discriminate Hloc.
    + exists (py "已终止访问该网页"). split.
      * apply list_elem_of_In. vm_compute. tauto.
      * exists (py "<h1>"), (py "</h1><p>将要访问</p>"). vm_compute. reflexivity.
  - destruct (main_prints_verdict sample_net timeout_checked (py "bad.cn") 0)
      as (_ & Hother & _).
    apply Hother; vm_compute; reflexivity.
  - destruct (main_prints_verdict sample_net timeout_checked [98; 56448; 100]%N 10)
      as (Hsurrogate & _ & _).
    apply Hsurrogate. vm_compute. reflexivity.
Defined.

(** ** The check URL *)

Lemma hex_digit_safe (d : N) : (d < 16)%N → always_safe (hex_digit d) = true.
Proof.
  intros Hd. unfold hex_digit, always_safe.
  destruct (N.ltb_spec d 10);
    repeat match goal with
      | |- context [(?a <=? ?b)%N] => destruct (N.leb_spec a b)
      | |- context [(?a =? ?b)%N] => destruct (N.eqb_spec a b)
      end; simpl; try done; lia.
Qed.

Lemma quote_byte_safe (b : N) :
  (b < 256)%N → Forall (λ c, url_safe c = true) (quote_byte b).
Proof.
  intros Hb. unfold quote_byte.
  destruct (N.eqb_spec b 32); [by repeat constructor|].
  destruct (always_safe b) eqn:Hs.
  - repeat constructor. unfold url_safe. by rewrite Hs.
  - assert (b / 16 < 16)%N by (apply N.Div0.div_lt_upper_bound; lia).
    assert (b mod 16 < 16)%N by (apply N.mod_lt; lia).
    repeat constructor; unfold url_safe; rewrite ?hex_digit_safe; done.
Qed.

Lemma utf8_encode_bytes (c : N) :
  (c < 1114112)%N → Forall (λ b, (b < 256)%N) (utf8_encode c).
Proof.
  intros Hc. unfold utf8_encode.
  assert (∀ x, x mod 64 < 64)%N as Hmod by (intros x; apply N.mod_lt; lia).
  destruct (N.ltb_spec c 128); [repeat constructor; lia|].
  destruct (N.ltb_spec c 2048).
  { assert (c / 64 < 32)%N by (apply N.Div0.div_lt_upper_bound; lia).
    pose proof (Hmod c). repeat constructor; lia. }
  destruct (N.ltb_spec c 65536).
  { assert (c / 4096 < 16)%N by (apply N.Div0.div_lt_upper_bound; lia).
    pose proof (Hmod c). pose proof (Hmod (c / 64)%N). repeat constructor; lia. }
  assert (c / 262144 < 5)%N by (apply N.Div0.div_lt_upper_bound; lia).
  pose proof (Hmod c). pose proof (Hmod (c / 64)%N). pose proof (Hmod (c / 4096)%N).
  repeat constructor; lia.
Qed.

(** X3. A target that holds a surrogate code point makes either classifier
    raise [UnicodeEncodeError] before any request is made. For every other
    target the percent-encoded target consists of letters, digits,
    [_ . - ~], [+] and [%] only, so the URL a classifier requests is the
    fixed prefix of its provider followed by characters that cannot end or
    extend the query parameter the target is placed in. *)
Theorem check_url_confines_target (requests_get : pystr → Z → HttpOutcome)
    (requests_get_other : pystr → Z → option pystr)
    (target : pystr) (timeout : Z) :
  Forall (λ c, (c < 1114112)%N) target →
  (existsb is_surrogate target = true →
   check_douyin_jump_call requests_get requests_get_other target timeout
     = Escapes UnicodeEncodeError ∧
   check_weibo_jump_call requests_get requests_get_other target timeout
     = Escapes UnicodeEncodeError) ∧
  (existsb is_surrogate target = false →
   ∃ encoded,
     quote_plus_call target = Returns encoded ∧
     Forall (λ c, url_safe c = true) encoded ∧
     (∀ result requests,
        check_douyin_jump_call requests_get requests_get_other target timeout
          = Returns (result, requests) →
        requests =
          [py "https://link.wtturl.cn/?aid=1128&lang=zh&scene=im&jumper_version=1&target="
             ++ encoded]) ∧
     (∀ result requests,
        check_weibo_jump_call requests_get requests_get_other target timeout
          = Returns (result, requests) →
        requests = [py "https://weibo.cn/sinaurl?u=" ++ encoded])).
Proof.
  intros Hvalid. unfold check_douyin_jump_call, check_weibo_jump_call.
  split.
  - unfold quote_plus_call. by intros ->.
  - intros Hclean. exists (quote_plus target).
    assert (quote_plus_call target = Returns (quote_plus target)) as Hcall
      by (unfold quote_plus_call; by rewrite Hclean).
    rewrite Hcall. split_and!.
    + done.
    + unfold quote_plus.
      apply Forall_concat, Forall_fmap, Forall_concat, Forall_fmap.
      eapply Forall_impl; [exact Hvalid|]. intros c Hc. simpl.
      eapply Forall_impl; [exact (utf8_encode_bytes c Hc)|]. intros b Hb.
      by apply quote_byte_safe.
    + intros result requests. rewrite check_douyin_jump_eq.
      destruct (requests_get_other _ _); [done|]. by intros [= _ <-].
    + intros result requests. rewrite check_weibo_jump_eq.
      destruct (requests_get_other _ _); [done|]. by intros [= _ <-].
Qed.

Lemma check_url_confines_target_witness :
  check_weibo_jump_call unreachable_net timeout_checked [98; 56448; 100]%N 10
    = Escapes UnicodeEncodeError ∧
  ∃ encoded,
    quote_plus_call (py "a.cn/?x=1&y=短 链#z") = Returns encoded ∧
    encoded = py "a.cn%2F%3Fx%3D1%26y%3D%E7%9F%AD+%E9%93%BE%23z" ∧
    Forall (λ c, url_safe c = true) encoded ∧
    check_weibo_jump_call unreachable_net timeout_checked
      (py "a.cn/?x=1&y=短 链#z") 10
    = Returns (error_result (py "timeout"),
               [py "https://weibo.cn/sinaurl?u=" ++ encoded]).
Proof.
  split.
  - destruct (check_url_confines_target unreachable_net timeout_checked
                [98; 56448; 100]%N 10) as [Hraises _].
    { apply (bool_decide_unpack _). vm_compute. exact I. }
    apply Hraises. vm_compute. reflexivity.
  - destruct (check_url_confines_target unreachable_net timeout_checked
                (py "a.cn/?x=1&y=短 链#z") 10) as [_ Hsafe].
    { apply (bool_decide_unpack _). vm_compute. exact I. }
    destruct Hsafe as (encoded & Hcall & Hsafe & _ & Hweibo);
      [vm_compute; reflexivity|].
    exists encoded. split_and!; [exact Hcall| |exact Hsafe|].
    + vm_compute in Hcall. by injection Hcall as <-.
    + destruct (check_weibo_jump_call _ _ _ _) as [[result requests]|exc] eqn:E;
        [|vm_compute in E; discriminate E].
      rewrite (Hweibo result requests eq_refl).
      vm_compute in E. by injection E as <- _.
Defined.

(** ** What the extraction returns *)

Section MatchFacts.

Variable unicode_alnum : N → bool.

Local Abbreviation Ends := (ends unicode_alnum).

Lemma prev_after_app (prev : option N) (w1 w2 : pystr) :
  prev_after (prev_after prev w1) w2 = prev_after prev (w1 ++ w2).
Proof.
  unfold prev_after. destruct w2 as [|c w2] using rev_ind.
  - by rewrite app_nil_r.
  - rewrite app_assoc, !last_snoc. done.
Qed.

(** Every end the matcher finds is reached by reading a string of the
    pattern's language. *)
Lemma ends_sound (fuel : nat) (r : Regex) :
  ∀ prev rest e, In e (Ends fuel r prev rest) →
    ∃ w, rest = w ++ e.2 ∧ e.1 = prev_after prev w ∧ lang r w.
Proof.
  revert r. induction fuel as [|fuel IHf];
    induction r as [p| |r1 IH1 r2 IH2|r IH]; intros prev rest e.
  1,5: rewrite ends_Class; destruct rest as [|c rest]; [done|];
       destruct (p c) eqn:Hp; [|done]; intros [<-|[]];
       exists [c]; split_and!; [done|done|by constructor].
  1,4: rewrite ends_WordBoundary; destruct (at_boundary _ _ _); [|done];
       intros [<-|[]]; exists []; split_and!; [done|done|constructor].
  1,3: rewrite ends_Seq; intros (e1 & He1 & He)%in_flat_map;
       apply IH1 in He1 as (w1 & -> & Hp1 & Hl1);
       apply IH2 in He as (w2 & Hw & Hp2 & Hl2);
       exists (w1 ++ w2); split_and!;
       [ rewrite <- app_assoc; f_equal; exact Hw
       | etrans; [exact Hp2|]; rewrite <- prev_after_app; f_equal; exact Hp1
       | by constructor ].
  - rewrite ends_Star_O. intros [<-|[]]. exists []. split_and!; [done|done|].
    constructor.
  - rewrite ends_Star_S.
    intros [Hin | [<-|[]]]%in_app_iff;
      [|exists []; split_and!; [done|done|constructor]].
    apply in_flat_map in Hin as (e1 & He1 & He).
    apply IH in He1 as (w1 & -> & Hp1 & Hl1).
    destruct (_ <? _)%nat; [|done].
    apply (IHf (Star r)) in He as (w2 & Hw & Hp2 & Hl2).
    exists (w1 ++ w2). split_and!.
    + rewrite <- app_assoc. f_equal. exact Hw.
    + etrans; [exact Hp2|]. rewrite <- prev_after_app. f_equal. exact Hp1.
    + by constructor.
Qed.

End MatchFacts.

Lemma prev_after_cons (prev : option N) (c : N) (w : pystr) :
  prev_after prev (c :: w) = prev_after (Some c) w.
Proof. exact (eq_sym (prev_after_app prev [c] w)). Qed.

Lemma tiles_gap (P : option N → pystr → pystr → Prop) (prev : option N)
    (gap text : pystr) (ms : list pystr) :
  tiles P (prev_after prev gap) text ms → tiles P prev (gap ++ text) ms.
Proof.
  inversion 1 as [|pv gap' m rest ms' HP Hrest]; subst; [constructor|].
  rewrite app_assoc. constructor.
  - rewrite <- prev_after_app. exact HP.
  - rewrite <- app_assoc, <- prev_after_app. exact Hrest.
Qed.

Lemma tiles_impl (P Q : option N → pystr → pystr → Prop) (prev : option N)
    (text : pystr) (ms : list pystr) :
  (∀ pv m post, P pv m post → Q pv m post) →
  tiles P prev text ms → tiles Q prev text ms.
Proof. intros HPQ. induction 1; constructor; auto. Qed.

Lemma tiles_elem_of (P : option N → pystr → pystr → Prop) (prev : option N)
    (text : pystr) (ms : list pystr) (m : pystr) :
  tiles P prev text ms → m ∈ ms →
  ∃ pre post, text = pre ++ m ++ post ∧ P (prev_after prev pre) m post.
Proof.
  induction 1 as [|prev gap m' rest ms HP Hrest IH]; [by intros ?%elem_of_nil|].
  intros [->|Hin]%elem_of_cons.
  - by exists gap, rest.
  - destruct (IH Hin) as (pre & post & -> & HPm).
    exists (gap ++ m' ++ pre), post. split; [by rewrite <- !app_assoc|].
    by rewrite app_assoc, <- prev_after_app.
Qed.

Section ScanFacts.

Variable unicode_alnum : N → bool.

Local Abbreviation Ends := (ends unicode_alnum).

(** [findall] reports its matches left to right, each starting where the
    scan stands and none overlapping the one before. *)
Lemma findall_from_tiles (r : Regex) (rest : pystr) :
  ∀ prev skip, (skip ≤ length rest)%nat →
    tiles (λ pv m post, ∃ fuel e, In e (Ends fuel r pv (m ++ post)) ∧ e.2 = post)
      (prev_after prev (take skip rest)) (drop skip rest)
      (findall_from unicode_alnum r prev rest skip).
Proof.
  induction rest as [|c rest IH]; intros prev skip Hskip; [constructor|].
  destruct skip as [|k].
  - match goal with |- tiles ?P _ _ _ =>
      change (tiles P prev (c :: rest)
        (match match_at unicode_alnum r prev (c :: rest) with
         | Some n => take n (c :: rest)
                     :: findall_from unicode_alnum r (Some c) rest (n - 1)
         | None => findall_from unicode_alnum r (Some c) rest 0
         end));
      assert (tiles P prev (c :: rest)
                (findall_from unicode_alnum r (Some c) rest 0)) as Hgap
        by (apply (tiles_gap P prev [c] rest); apply (IH (Some c) 0%nat); lia)
    end.
    unfold match_at.
    destruct (ends unicode_alnum (length (c :: rest)) r prev (c :: rest))
      as [|e l] eqn:He; [exact Hgap|].
    destruct (ends_sound unicode_alnum (length (c :: rest)) r prev (c :: rest) e)
      as (w & Hw & _ & _); [rewrite He; by left|].
    pose proof (f_equal length Hw) as Hlen. rewrite length_app in Hlen.
    replace (length (c :: rest) - length e.2)%nat with (length w) by lia.
    replace (take (length w) (c :: rest)) with w
      by (rewrite Hw; symmetry; apply take_app_length).
    destruct w as [|c' w].
    + apply (tiles_cons _ prev [] [] (c :: rest)); [|exact Hgap].
      exists (length (c :: rest)), e. split; [|symmetry; exact Hw].
      change (In e (ends unicode_alnum (length (c :: rest)) r prev (c :: rest))).
      rewrite He. by left.
    + injection Hw as <- Hrest.
      replace (length (c :: w) - 1)%nat with (length w) by (simpl; lia).
      assert (Hskip' : (length w ≤ length rest)%nat)
        by (rewrite Hrest, length_app; lia).
      specialize (IH (Some c) (length w) Hskip').
      replace (take (length w) rest) with w in IH
        by (rewrite Hrest; symmetry; apply take_app_length).
      replace (drop (length w) rest) with e.2 in IH
        by (rewrite Hrest; symmetry; apply drop_app_length).
      rewrite <- (prev_after_cons prev c w) in IH.
      replace (c :: rest) with ([] ++ (c :: w) ++ e.2)
        by (simpl; f_equal; symmetry; exact Hrest).
      apply tiles_cons; [|exact IH].
      exists (length (c :: rest)), e. split; [|done].
      replace ((c :: w) ++ e.2) with (c :: rest)
        by (simpl; f_equal; exact Hrest).
      change (In e (ends unicode_alnum (length (c :: rest)) r prev (c :: rest))).
      rewrite He. by left.
  - change (tiles (λ pv m post, ∃ fuel e,
              In e (Ends fuel r pv (m ++ post)) ∧ e.2 = post)
            (prev_after prev (c :: take k rest)) (drop k rest)
            (findall_from unicode_alnum r (Some c) rest k)).
    rewrite prev_after_cons. apply IH. simpl in Hskip. lia.
Qed.

Lemma findall_tiles (r : Regex) (text : pystr) :
  tiles (λ pv m post, ∃ fuel e, In e (Ends fuel r pv (m ++ post)) ∧ e.2 = post)
    None text (findall unicode_alnum r text).
Proof. exact (findall_from_tiles r text None 0%nat (Nat.le_0_l _)). Qed.

End ScanFacts.

(** *** The language of [DOMAIN_REGEX] *)

Lemma lang_Class_inv (p : N → bool) (w : pystr) :
  lang (Class p) w → ∃ c, w = [c] ∧ p c = true.
Proof. inversion 1; subst. eauto. Qed.

Lemma lang_Seq_inv (r1 r2 : Regex) (w : pystr) :
  lang (Seq r1 r2) w → ∃ w1 w2, w = w1 ++ w2 ∧ lang r1 w1 ∧ lang r2 w2.
Proof. inversion 1; subst. eauto. Qed.

Lemma lang_Star_inv (Q : pystr → Prop) (r : Regex) (w : pystr) :
  (∀ w1, lang r w1 → Q w1) →
  lang (Star r) w → ∃ ws, Forall Q ws ∧ w = concat ws.
Proof.
  intros HQ H. remember (Star r) as sr eqn:Hsr.
  induction H as [| | | |r' w1 w2 H1 _ H2 IH]; try discriminate.
  - by exists [].
  - injection Hsr as ->. destruct (IH eq_refl) as (ws & Hws & ->).
    exists (w1 :: ws). split; [|done]. constructor; auto.
Qed.

Lemma lang_Star_Class (p : N → bool) (w : pystr) :
  lang (Star (Class p)) w → Forall (λ c, p c = true) w.
Proof.
  intros (ws & Hws & ->)%(lang_Star_inv (λ w1, ∃ c, w1 = [c] ∧ p c = true));
    [|apply lang_Class_inv].
  induction Hws as [|w1 ws (c & -> & Hc) _ IH]; simpl; [constructor|].
  by constructor.
Qed.

Lemma lang_label (w : pystr) :
  lang (Seq (Class alnum) (Seq (Star (Class alnum_dash)) (Class dot))) w →
  ∃ l, is_label alnum alnum_dash l ∧ w = l ++ [46%N].
Proof.
  intros (w1 & w23 & -> & (c & -> & Hc)%lang_Class_inv
          & (w2 & w3 & -> & Hw2%lang_Star_Class
             & (d & -> & Hd%N.eqb_eq)%lang_Class_inv)%lang_Seq_inv)%lang_Seq_inv.
  subst d. exists (c :: w2). split; [by exists c, w2|done].
Qed.

Lemma lang_tld (w : pystr) :
  lang (AtLeast2 (Class alpha)) w → is_tld alpha w.
Proof.
  intros (w1 & w23 & -> & (a & -> & Ha)%lang_Class_inv
          & (w2 & w3 & -> & (b & -> & Hb)%lang_Class_inv
             & Hw3%lang_Star_Class)%lang_Seq_inv)%lang_Seq_inv.
  split; [simpl; lia|]. by repeat constructor.
Qed.

Lemma lang_domain (m : pystr) :
  lang (Seq (Plus (Seq (Class alnum) (Seq (Star (Class alnum_dash)) (Class dot))))
            (AtLeast2 (Class alpha))) m →
  domain_shape alnum alnum_dash alpha m.
Proof.
  intros (w1 & tld & -> & (wl & wls & -> & (l & Hl & ->)%lang_label & Hstar)%lang_Seq_inv
          & Htld%lang_tld)%lang_Seq_inv.
  apply (lang_Star_inv (λ w, ∃ l, is_label alnum alnum_dash l ∧ w = l ++ [46%N]))
    in Hstar as (ws & Hws & ->); [|apply lang_label].
  assert (∃ labels, Forall (is_label alnum alnum_dash) labels ∧
                    ws = (λ l, l ++ [46%N]) <$> labels) as (labels & Hlabels & ->).
  { induction Hws as [|w ws (l' & Hl' & ->) _ (labels & Hlabels & ->)].
    - by exists [].
    - exists (l' :: labels). split; [by constructor|done]. }
  exists (l :: labels), tld. split_and!; [done|by constructor|done|done].
Qed.

Section DomainMatch.

Variable unicode_alnum : N → bool.

Lemma alnum_is_word (c : N) : alnum c = true → is_word unicode_alnum c = true.
Proof.
  intros Hc. unfold is_word. rewrite Hc.
  destruct (N.ltb_spec c 128) as [_|Hge]; [done|]. exfalso.
  revert Hc. unfold alnum, alpha, is_lower, is_upper, is_digit.
  rewrite !orb_true_iff, !andb_true_iff, !N.leb_le. lia.
Qed.

(** A match of [DOMAIN_REGEX] has the shape of a domain name and stands
    between characters that are not word characters. *)
Lemma domain_match (fuel : nat) (prev : option N) (rest : pystr)
    (e : option N * pystr) :
  In e (ends unicode_alnum fuel DOMAIN_REGEX prev rest) →
  ∃ m, rest = m ++ e.2 ∧ domain_shape alnum alnum_dash alpha m ∧
       delimited unicode_alnum prev e.2.
Proof.
  unfold DOMAIN_REGEX. rewrite ends_Seq, ends_WordBoundary.
  destruct (at_boundary unicode_alnum prev rest) eqn:Hb1; [|done].
  simpl. rewrite app_nil_r, ends_Seq.
  intros ([pv1 rest1] & He1 & He)%in_flat_map. rewrite ends_WordBoundary in He.
  cbn [fst snd] in He.
  destruct (at_boundary unicode_alnum pv1 rest1) eqn:Hb2; [|done].
  destruct He as [<-|[]].
  apply ends_sound in He1 as (m & -> & Hprev & Hshape%lang_domain).
  cbn [fst snd] in *. subst pv1.
  exists m. split; [done|]. split; [done|].
  destruct Hshape as (labels & tld & Hne & Hlabels & [Hlen Htld] & Hm).
  destruct labels as [|l labels]; [done|].
  apply Forall_cons in Hlabels as [(c & l' & -> & Hc & _) _].
  assert (head (m ++ rest1) = Some c) as Hhead by (by rewrite Hm).
  unfold at_boundary in Hb1. rewrite Hhead in Hb1. cbn [from_option] in Hb1.
  rewrite (alnum_is_word c Hc) in Hb1.
  destruct tld as [|t tld _] using rev_ind; [simpl in Hlen; lia|].
  apply Forall_app in Htld as [_ [Ht _]%Forall_cons].
  assert (is_word unicode_alnum t = true) as Hwt.
  { apply alnum_is_word. unfold alnum. by rewrite Ht. }
  assert (prev_after prev m = Some t) as Hlast.
  { rewrite Hm, app_assoc. unfold prev_after. by rewrite last_snoc. }
  unfold at_boundary in Hb2. rewrite Hlast in Hb2. cbn [from_option] in Hb2.
  rewrite Hwt in Hb2.
  split.
  - by destruct (from_option (is_word unicode_alnum) false prev).
  - by destruct (from_option (is_word unicode_alnum) false (head rest1)).
Qed.

End DomainMatch.

(** *** Lower-casing keeps the shape *)

Lemma ascii_lower_classes (c : N) :
  (alnum c = true → lower_alnum (ascii_lower c) = true) ∧
  (alnum_dash c = true → lower_alnum_dash (ascii_lower c) = true) ∧
  (alpha c = true → is_lower (ascii_lower c) = true).
Proof.
  unfold alnum_dash, alnum, alpha, lower_alnum_dash, lower_alnum, is_upper,
    is_lower, is_digit, ascii_lower.
  destruct ((65 <=? c) && (c <=? 90))%N eqn:Hup.
  - apply andb_true_iff in Hup as [Ha%N.leb_le Hb%N.leb_le].
    rewrite !orb_true_iff, !andb_true_iff, !N.leb_le, !N.eqb_eq. lia.
  - apply andb_false_iff in Hup. rewrite !N.leb_gt in Hup.
    rewrite !orb_true_iff, !andb_true_iff, !N.leb_le, !N.eqb_eq. lia.
Qed.

Lemma lower_app (a b : pystr) : lower (a ++ b) = lower a ++ lower b.
Proof. unfold lower. apply map_app. Qed.

Lemma lower_labels (labels : list pystr) :
  lower (concat ((λ l, l ++ [46%N]) <$> labels)) =
  concat ((λ l, l ++ [46%N]) <$> (lower <$> labels)).
Proof.
  induction labels as [|l labels IH]; [done|].
  rewrite !fmap_cons. simpl. rewrite !lower_app, IH. by rewrite <- !app_assoc.
Qed.

Lemma domain_shape_lower (m : pystr) :
  domain_shape alnum alnum_dash alpha m →
  domain_shape lower_alnum lower_alnum_dash is_lower (lower m).
Proof.
  intros (labels & tld & Hne & Hlabels & [Hlen Htld] & ->).
  exists (lower <$> labels), (lower tld). split_and!.
  - by destruct labels.
  - apply Forall_fmap. eapply Forall_impl; [exact Hlabels|].
    intros l (c & l' & -> & Hc & Hl'). exists (ascii_lower c), (lower l').
    split_and!; [done|by apply ascii_lower_classes|].
    unfold lower. apply Forall_fmap. eapply Forall_impl; [exact Hl'|].
    intros x Hx. by apply ascii_lower_classes.
  - split; [unfold lower; by rewrite length_map|].
    unfold lower. apply Forall_fmap. eapply Forall_impl; [exact Htld|].
    intros x Hx. by apply ascii_lower_classes.
  - by rewrite lower_app, lower_labels.
Qed.

Lemma domain_shape_has_dot (first inner top : N → bool) (m : pystr) :
  domain_shape first inner top m → 46%N ∈ m.
Proof.
  intros (labels & tld & Hne & _ & _ & ->).
  destruct labels as [|l labels]; [done|]. rewrite fmap_cons. simpl.
  rewrite !elem_of_app. left. left. right. left.
Qed.

Lemma extract_elem_of (unicode_alnum : N → bool) (text d : pystr) :
  d ∈ extract_domains_from_text unicode_alnum text ↔
  ∃ m, m ∈ findall unicode_alnum DOMAIN_REGEX text ∧ d = lower m.
Proof.
  unfold extract_domains_from_text.
  rewrite extract_loop_spec, app_nil_l, filter_all by set_solver.
  rewrite first_occurrences_elem_of, list_elem_of_fmap.
  split; intros (m & ? & ?); exists m; done.
Qed.

(** X4. The matches the extraction works on lie in the text one after
    another, left to right and without overlap; each has the shape of a
    domain name (labels of letters, digits and inner hyphens, each followed
    by a dot, then at least two letters) and has no word character
    immediately before or after it. *)
Theorem domain_matches_tile_text (unicode_alnum : N → bool) (text : pystr) :
  tiles (λ before m after,
           domain_shape alnum alnum_dash alpha m ∧
           delimited unicode_alnum before after)
    None text (findall unicode_alnum DOMAIN_REGEX text).
Proof.
  eapply tiles_impl; [|apply findall_tiles].
  intros pv m post (fuel & e & He & <-).
  apply domain_match in He as (m' & Hm & Hshape & Hdel).
  apply app_inv_tail in Hm as ->. done.
Qed.

(** X5. Every domain the extraction returns is the lower-casing of a
    substring of the text that stands between non-word characters (or the
    ends of the text), and it is a well-formed lower-case domain name: one or
    more labels [[a-z0-9][a-z0-9-]*], each followed by a dot, then at least
    two letters [a-z]. A text without a dot yields no domain. *)
Theorem extracted_domains_well_formed (unicode_alnum : N → bool) (text : pystr) :
  (∀ d, d ∈ extract_domains_from_text unicode_alnum text →
     domain_shape lower_alnum lower_alnum_dash is_lower d ∧
     ∃ pre m post,
       text = pre ++ m ++ post ∧ d = lower m ∧
       delimited unicode_alnum (last pre) post) ∧
  (46%N ∉ text → extract_domains_from_text unicode_alnum text = []).
Proof.
  assert (∀ d, d ∈ extract_domains_from_text unicode_alnum text →
            ∃ pre m post,
              text = pre ++ m ++ post ∧ d = lower m ∧
              domain_shape alnum alnum_dash alpha m ∧
              delimited unicode_alnum (last pre) post) as Hsub.
  { intros d (m & Hm & ->)%extract_elem_of.
    pose proof (findall_tiles unicode_alnum DOMAIN_REGEX text) as H.
    destruct (tiles_elem_of _ _ _ _ _ H Hm) as (pre & post & -> & fuel & e & He & <-).
    apply domain_match in He as (m' & Hm' & Hshape & Hdel).
    apply app_inv_tail in Hm' as <-.
    exists pre, m, e.2. split_and!; try done.
    unfold prev_after in Hdel. by destruct (last pre). }
  split.
  - intros d Hd. destruct (Hsub d Hd) as (pre & m & post & -> & -> & Hshape & Hdel).
    split; [by apply domain_shape_lower|]. by exists pre, m, post.
  - intros Hnodot. apply elem_of_nil_inv. intros d Hd.
    destruct (Hsub d Hd) as (pre & m & post & -> & _ & Hshape & _).
    apply Hnodot. rewrite !elem_of_app. right. left.
    by eapply domain_shape_has_dot.
Qed.

(** ** What a run reports *)

Lemma total_of_app {A : Type} (w : A → Z) (l1 l2 : list A) :
  total_of w (l1 ++ l2) = total_of w l1 + total_of w l2.
Proof. induction l1 as [|x l1 IH]; simpl; [done|]. rewrite IH. lia. Qed.

Lemma pystr_eqb_ok_blocked (status : pystr) :
  pystr_eqb status (py "ok") = true → pystr_eqb status (py "blocked") = false.
Proof.
  unfold pystr_eqb. intros ->%bool_decide_eq_true.
  apply bool_decide_eq_false. apply py_ok_blocked.
Qed.

(** The routine part of re-establishing [report_inv] after thread [i], whose
    frame is recorded by [Hi], has moved. *)
Ltac rep_step Hi Htasks Hvalues :=
  constructor; simpl;
  [ intros u; specialize (Htasks u) | | | | |
  | intros k; specialize (Hvalues k) ];
  rewrite ?(total_of_insert _ _ _ _ _ Hi), ?total_of_app; simpl;
  try match goal with H : _queue _ = _ |- _ => rewrite ?H in * end;
  simpl in *; unfold indicator in *; repeat case_decide; try lia.

Section ReportFacts.

Variable requests_get : pystr → Z → HttpOutcome.
Variable urls : list pystr.

Local Abbreviation Rep := (report_inv urls).

Lemma start_rep (self : WorkerManager) (num_threads : Z) (mode' : pystr) :
  Rep (start self urls num_threads mode') [].
Proof.
  constructor; simpl; unfold spawn; intros;
    rewrite ?drain_nil, ?put_all_app, ?total_of_replicate; simpl; try lia.
  case_decide; lia.
Qed.

Lemma worker_step_rep (i : nat) (s s' : WorkerManager) (out o : list Signal) :
  Rep s out → worker_step requests_get i s = Some (s', o) → Rep s' (out ++ o).
Proof.
  intros [Htasks Hc Hres Hst Hok Hbl Hvalues] Hstep.
  unfold worker_step, _thread_entry, _worker_loop in Hstep.
  destruct (_threads s !! i) as [f|] eqn:Hi; [|done].
  destruct f as [| | |url|url st|url st t c n b|url st t c n b|url st| |];
    simpl in *.
  - destruct (_stop s); injection Hstep as <- <-; rep_step Hi Htasks Hvalues.
  - destruct (_pause s && negb (_stop s)); injection Hstep as <- <-;
      [|rep_step Hi Htasks Hvalues].
    rewrite app_nil_r. by constructor.
  - destruct (_queue s) as [|url q] eqn:Hq; injection Hstep as <- <-;
      rep_step Hi Htasks Hvalues.
  - destruct (attempt _ _ _) as [status|exc]; injection Hstep as <- <-;
      rep_step Hi Htasks Hvalues.
  - injection Hstep as <- <-. rep_step Hi Htasks Hvalues.
    + destruct (pystr_eqb st (py "ok")); lia.
    + destruct (pystr_eqb st (py "ok")) eqn:Eok;
        [rewrite (pystr_eqb_ok_blocked _ Eok)
        |destruct (pystr_eqb st (py "blocked"))]; lia.
  - injection Hstep as <- <-. rep_step Hi Htasks Hvalues.
  - injection Hstep as <- <-. rep_step Hi Htasks Hvalues.
  - injection Hstep as <- <-. rep_step Hi Htasks Hvalues.
  - injection Hstep as <- <-.
    destruct (_active_threads s - 1 <=? 0); rep_step Hi Htasks Hvalues.
  - done.
Qed.

Lemma act_rep (a : Action) (s s' : WorkerManager) (out o : list Signal) :
  Rep s out → act requests_get a s = Some (s', o) → Rep s' (out ++ o).
Proof.
  destruct a as [i| | |]; simpl; [apply worker_step_rep| | |];
    intros [] [= <- <-]; rewrite app_nil_r; by constructor.
Qed.

Lemma run_rep (sched : list Action) (s s' : WorkerManager) (out o : list Signal) :
  Rep s out → run requests_get sched s = Some (s', o) → Rep s' (out ++ o).
Proof.
  revert s out o. induction sched as [|a sched IH]; intros s out o Hinv; simpl.
  - intros [= <- <-]. by rewrite app_nil_r.
  - destruct (act requests_get a s) as [[s1 o1]|] eqn:Hact; [|done].
    destruct (run requests_get sched s1) as [[s2 o2]|] eqn:Hrun; [|done].
    intros [= <- <-]. rewrite app_assoc.
    eapply IH; [|done]. by eapply act_rep.
Qed.

Lemma reachable_rep (self : WorkerManager) (num_threads : Z) (mode' : pystr)
    (sched : list Action) (s : WorkerManager) (out : list Signal) :
  run requests_get sched (start self urls num_threads mode') = Some (s, out) →
  Rep s out.
Proof.
  intros Hrun. by apply (run_rep _ _ _ [] _ (start_rep self num_threads mode')) in Hrun.
Qed.

End ReportFacts.

(** *** From sums of indicators to lists *)

Lemma total_of_omap {A B : Type} (w : B → Z) (h : A → option B) (l : list A) :
  total_of (λ x, opt_weight w (h x)) l = total_of w (omap h l).
Proof.
  induction l as [|x l IH]; simpl; [done|].
  rewrite IH. unfold opt_weight. by destruct (h x).
Qed.

Lemma total_of_ones {A : Type} (l : list A) :
  total_of (λ _, 1) l = Z.of_nat (length l).
Proof. induction l as [|x l IH]; simpl; lia. Qed.

Lemma total_of_indicator {A : Type} `{EqDecision A} (u : A) (l : list A) :
  total_of (indicator u) l =
  Z.of_nat (count_occ (λ x y : A, decide (x = y)) l u).
Proof.
  induction l as [|x l IH]; simpl; [done|]. rewrite IH. unfold indicator.
  destruct (decide (u = x)), (decide (x = u)); try congruence; lia.
Qed.

Lemma Permutation_indicators {A : Type} `{EqDecision A} (l1 l2 : list A) :
  (∀ u, total_of (indicator u) l1 = total_of (indicator u) l2) → l1 ≡ₚ l2.
Proof.
  intros H. apply (Permutation_count_occ (λ x y : A, decide (x = y))).
  intros u. specialize (H u). rewrite !total_of_indicator in H. lia.
Qed.

Lemma count_in_range (n : nat) (k : Z) :
  total_of (indicator k) (Z.of_nat <$> seq 1 n) =
  if decide (1 ≤ k ≤ Z.of_nat n) then 1 else 0.
Proof.
  induction n as [|n IH]; [simpl; case_decide; lia|].
  rewrite seq_S, fmap_app, total_of_app, IH. simpl. unfold indicator.
  repeat case_decide; lia.
Qed.

Lemma all_exited_omap {B : Type} (h : Frame → option B) (s : WorkerManager) :
  h Exited = None → all_exited s → omap h (_threads s) = [].
Proof.
  unfold all_exited. intros Hh.
  induction 1 as [|f l -> _ IH]; simpl; [done|]. by rewrite Hh.
Qed.




Lemma status_signal_results (wanted : pystr) (out : list Signal) :
  total_of (status_signal wanted) out = Z.of_nat (length (results_with wanted out)).
Proof.
  unfold results_with. induction out as [|sg out IH]; [done|].
  csimpl. rewrite IH. destruct sg as [?|u st|? ? ? ?|]; csimpl; try lia.
  destruct (pystr_eqb st wanted); csimpl; lia.
Qed.

Lemma NoDup_indicators {A : Type} `{EqDecision A} (l : list A) :
  (∀ u, total_of (indicator u) l ≤ 1) → NoDup l.
Proof.
  intros H. apply NoDup_ListNoDup, (NoDup_count_occ (λ x y : A, decide (x = y))).
  intros u.
  specialize (H u). rewrite total_of_indicator in H. lia.
Qed.

Lemma opt_indicator_bounds {A B : Type} `{EqDecision B} (h : A → option B)
    (k : B) (x : A) :
  0 ≤ opt_weight (indicator k) (h x) ≤ 1.
Proof.
  unfold opt_weight, indicator. destruct (h x); simpl; [case_decide|]; lia.
Qed.

(** X7. The signals and the counters agree. At every point of a run the
    [checked] values carried by the [statsUpdate] signals emitted so far are
    pairwise different and lie between 1 and [checked], and no more results
    or snapshots have been emitted than tasks were counted. Once all workers
    have exited (whether the run was stopped or not) there is one
    [resultReady] and one [statsUpdate] per counted task, the tasks reported
    [ok] are as many as [normal], those reported [blocked] as many as
    [blocked], and the snapshots carried every value from 1 to [checked]
    exactly once. *)
Theorem signals_match_counters (requests_get : pystr → Z → HttpOutcome)
    (self : WorkerManager) (urls : list pystr) (num_threads : Z) (mode' : pystr)
    (sched : list Action) (s : WorkerManager) (out : list Signal) :
  run requests_get sched (start self urls num_threads mode') = Some (s, out) →
  (NoDup (stats_values out) ∧
   (∀ k, k ∈ stats_values out → 1 ≤ k ≤ checked s) ∧
   Z.of_nat (length (stats_values out)) ≤ Z.of_nat (length (result_urls out)) ∧
   Z.of_nat (length (result_urls out)) ≤ checked s) ∧
  (all_exited s →
   Z.of_nat (length (result_urls out)) = checked s ∧
   Z.of_nat (length (stats_values out)) = checked s ∧
   Z.of_nat (length (results_with (py "ok") out)) = normal s ∧
   Z.of_nat (length (results_with (py "blocked") out)) = blocked s ∧
   stats_values out ≡ₚ Z.of_nat <$> seq 1 (Z.to_nat (checked s))).
Proof.
  intros Hrun.
  pose proof (reachable_rep _ _ _ _ _ _ _ _ Hrun)
    as [_ Hc Hres Hst Hok Hbl Hvalues].
  rewrite total_of_omap, total_of_ones in Hres.
  rewrite !total_of_omap, !total_of_ones in Hst.
  rewrite status_signal_results in Hok, Hbl.
  fold (result_urls out) in Hres. fold (stats_values out) in Hst.
  match type of Hres with _ + total_of ?w _ = _ => set (emitting := w) in * end.
  assert (0 ≤ total_of emitting (_threads s)
          ≤ Z.of_nat (length (omap pending_stats (_threads s)))) as Hem.
  { clear. induction (_threads s) as [|f l IH]; csimpl; [lia|].
    destruct f; csimpl; lia. }
  assert (∀ k, total_of (indicator k) (stats_values out)
               ≤ if decide (1 ≤ k ≤ checked s) then 1 else 0) as Hle.
  { intros k. specialize (Hvalues k). rewrite total_of_omap in Hvalues.
    pose proof (total_of_bounds _ (_threads s) (opt_indicator_bounds pending_stats k)).
    unfold stats_values. lia. }
  split.
  - split_and!.
    + apply NoDup_indicators. intros k. specialize (Hle k). case_decide; lia.
    + intros k Hk. specialize (Hle k). case_decide; [done|].
      apply (list_elem_of_In), (count_occ_In (λ x y : Z, decide (x = y))) in Hk.
      rewrite total_of_indicator in Hle. lia.
    + lia.
    + lia.
  - intros Hall.
    rewrite (all_exited_no_weight emitting s eq_refl Hall) in Hres.
    rewrite (all_exited_no_weight (status_frame (py "ok")) s eq_refl Hall) in Hok.
    rewrite (all_exited_no_weight (status_frame (py "blocked")) s eq_refl Hall)
      in Hbl.
    rewrite (all_exited_omap pending_stats s eq_refl Hall) in Hst. simpl in Hst.
    split_and!; try lia.
    apply Permutation_indicators. intros k. specialize (Hvalues k).
    rewrite !total_of_omap in Hvalues.
    rewrite (all_exited_omap pending_stats s eq_refl Hall) in Hvalues.
    simpl in Hvalues. rewrite count_in_range, Z2Nat.id by done.
    unfold stats_values. lia.
Qed.

Lemma signals_match_counters_witness :
  let urls := [py "good.cn"; py "bad.cn"; py "good.io"; py "x.cn"; py "y.cn"] in
  let s0 := start init urls 2 (py "douyin") in
  let sched :=
    [Worker 0; Worker 0; Worker 0; Worker 0; Worker 1; Worker 1; Worker 1;
     Worker 1; Worker 0; Worker 1; Worker 1; Worker 1; Worker 0; Worker 0;
     Worker 0; Worker 1; Worker 0; Worker 1; Worker 0; Worker 1; Worker 0;
     Worker 1; Worker 0; Worker 1; Worker 0; Worker 1; Stop; Worker 0;
     Worker 1; Worker 0; Worker 1; Worker 0; Worker 1; Worker 0; Worker 1;
     Worker 0; Worker 1] in
  ∃ s out,
    run sample_net sched s0 = Some (s, out) ∧
    (checked s, normal s, blocked s) = (4, 2, 1) ∧
    stats_values out = [2; 1; 3; 4] ∧
    results_with (py "ok") out = [py "good.cn"; py "good.io"] ∧
    results_with (py "blocked") out = [py "bad.cn"] ∧
    NoDup (stats_values out) ∧
    Z.of_nat (length (result_urls out)) = checked s ∧
    Z.of_nat (length (stats_values out)) = checked s ∧
    Z.of_nat (length (results_with (py "ok") out)) = normal s ∧
    Z.of_nat (length (results_with (py "blocked") out)) = blocked s ∧
    stats_values out ≡ₚ Z.of_nat <$> seq 1 (Z.to_nat (checked s)).
Proof.
  cbv zeta. eexists _, _. split; [vm_compute; reflexivity|].
  split; [vm_compute; reflexivity|].
  split; [vm_compute; reflexivity|].
  split; [vm_compute; reflexivity|].
  split; [vm_compute; reflexivity|].
  edestruct (signals_match_counters sample_net init
               [py "good.cn"; py "bad.cn"; py "good.io"; py "x.cn"; py "y.cn"]
               2 (py "douyin")
               [Worker 0; Worker 0; Worker 0; Worker 0; Worker 1; Worker 1;
                Worker 1; Worker 1; Worker 0; Worker 1; Worker 1; Worker 1;
                Worker 0; Worker 0; Worker 0; Worker 1; Worker 0; Worker 1;
                Worker 0; Worker 1; Worker 0; Worker 1; Worker 0; Worker 1;
                Worker 0; Worker 1; Stop; Worker 0; Worker 1; Worker 0;
                Worker 1; Worker 0; Worker 1; Worker 0; Worker 1; Worker 0;
                Worker 1])
    as ((Hnodup & _) & Hdone); [vm_compute; reflexivity|].
  destruct Hdone as (Hres & Hstats & Hok & Hbl & Hperm); [repeat constructor|].
  split_and!; [exact Hnodup|exact Hres|exact Hstats|exact Hok|exact Hbl|exact Hperm].
Defined.
